(** * Unshredder: a shallow embedding of [unshredder.py] and its properties

    The program re-orders the vertical strips of a shredded image.  It
    samples the two border columns of every strip, scores every ordered pair
    of distinct strips with [GetDistance], keeps per strip and per side the
    closest candidate ([FindNeighbors]), looks for the strip whose left
    neighbour does not point back to it ([DetectLeftEdge]) and pastes the
    chain of right neighbours from there ([OrderStrips]).

    Python integers are unbounded, hence [Z].  A pixel is a tuple of channel
    values, hence [list Z].  Python lists indexed by position are lists with
    stdpp's lookup.  Strip objects live in a store (the list [strips]); a
    reference to a strip is its index in that store, and [strip ==
    inner_strip] (object identity, the class defines no [__eq__]) is equality
    of indices.  Exceptions are the [Raise] outcomes of a small error monad. *)

From Stdlib Require Import ZArith Lia.
From stdpp Require Import base list.

Local Open Scope Z_scope.

(** ** Outcomes *)

(** The exceptions the modelled code can raise.  [NonTermination] stands for
    a [while] loop that never leaves, [RecursionError] for a recursion that
    goes deeper than the interpreter allows.  Two outcomes are no Python
    outcomes.  [DanglingRef] is what the model answers when a reference
    points outside the store, which no store built by the program does.
    [Unmodelled] is what it answers where it does not follow the code: an
    index below minus the length of the image data, a border loop with a
    negative stride that has not raised within its rounds, and a negative
    strip width. *)
Inductive PyError : Type :=
  | IndexError
  | AttributeError
  | ZeroDivisionError
  | RecursionError
  | NonTermination
  | DanglingRef
  | Unmodelled.

Inductive result (A : Type) : Type :=
  | Ok (a : A)
  | Raise (e : PyError).

Arguments Ok {A} a.
Arguments Raise {A} e.

Definition result_bind {A B} (f : A → result B) (m : result A) : result B :=
  match m with
  | Ok a => f a
  | Raise e => Raise e
  end.

#[global] Instance result_ret : MRet result := fun _ a => Ok a.
#[global] Instance result_mbind : MBind result := fun _ _ f m => result_bind f m.

(** ** Data model *)

(** A pixel is the tuple of its channel values. *)
Abbreviation Pixel := (list Z).

(** The two keys ['l'] and ['r'] of the per-border dictionaries. *)
Inductive Border : Type := L | R.

#[global] Instance Border_eq_dec : EqDecision Border.
Proof. solve_decision. Defined.

(** A dictionary with exactly the keys ['l'] and ['r']. *)
Record Dict (A : Type) : Type := mkDict { at_l : A; at_r : A }.

Arguments mkDict {A} at_l at_r.
Arguments at_l {A} d.
Arguments at_r {A} d.

Definition get {A} (d : Dict A) (b : Border) : A :=
  match b with L => at_l d | R => at_r d end.

Definition set {A} (d : Dict A) (b : Border) (v : A) : Dict A :=
  match b with
  | L => mkDict v (at_r d)
  | R => mkDict (at_l d) v
  end.

(** A PIL image: number of bands, size (width, height) and the row-major
    sequence [getdata()]. *)
Record PilImage : Type := mkImage {
  bands : nat;
  size : Z * Z;
  getdata : list Pixel
}.

(** [MAX = 10 ** 9] *)
Definition MAX : Z := 10 ^ 9.

(** The fields of a [Strip] object.  [_image_data] is [_image.getdata()]. *)
Record Strip : Type := mkStrip {
  _position : Z;
  _image : PilImage;
  _neighbors : Dict (option nat);
  _min_distances : Dict Z;
  _border_pixels : Dict (list Pixel)
}.

Definition _image_data (s : Strip) : list Pixel := getdata (_image s).

Definition GetBorderPixels (s : Strip) (border : Border) : list Pixel :=
  get (_border_pixels s) border.

Definition GetRightNeighbor (s : Strip) : option nat := get (_neighbors s) R.
Definition GetLeftNeighbor (s : Strip) : option nat := get (_neighbors s) L.
Definition GetImage (s : Strip) : PilImage := _image s.

(** ** GetDistance *)

(** [for j in range(len(a_rgb)-3): distance += abs(a_rgb[j] - b_rgb[j])] *)
Fixpoint channel_loop (js : list nat) (a_rgb b_rgb : Pixel) (distance : Z)
  : result Z :=
  match js with
  | [] => Ok distance
  | j :: js' =>
      match a_rgb !! j, b_rgb !! j with
      | Some x, Some y => channel_loop js' a_rgb b_rgb (distance + Z.abs (x - y))
      | _, _ => Raise IndexError
      end
  end.

(** [range(len(a_rgb)-3)]: empty when the tuple has three channels or
    fewer, which the truncated subtraction of [nat] gives as well. *)
Definition channel_range (a_rgb : Pixel) : list nat :=
  seq 0 (length a_rgb - 3).

(** [for i in range(len(pixels_a)): ...] *)
Fixpoint pixel_loop (idxs : list nat) (pixels_a pixels_b : list Pixel)
    (distance : Z) : result Z :=
  match idxs with
  | [] => Ok distance
  | i :: idxs' =>
      match pixels_a !! i, pixels_b !! i with
      | Some a_rgb, Some b_rgb =>
          d ← channel_loop (channel_range a_rgb) a_rgb b_rgb distance;
          pixel_loop idxs' pixels_a pixels_b d
      | _, _ => Raise IndexError
      end
  end.

Definition GetDistance (pixels_a pixels_b : list Pixel) : result Z :=
  pixel_loop (seq 0 (length pixels_a)) pixels_a pixels_b 0.

(** The distance as the specification words it: the sum, over the paired
    sample indices, of the absolute difference of the first channel. *)
Definition first_channel (p : Pixel) : Z := hd 0 p.

Fixpoint first_channel_distance (pixels_a pixels_b : list Pixel) : Z :=
  match pixels_a, pixels_b with
  | a_rgb :: rest_a, b_rgb :: rest_b =>
      Z.abs (first_channel a_rgb - first_channel b_rgb)
      + first_channel_distance rest_a rest_b
  | _, _ => 0
  end.

(** What the loops add up in general: per pair of pixels, the channels with
    index below [len(a_rgb) - 3]. *)
Fixpoint channel_sum (n : nat) (a_rgb b_rgb : Pixel) : Z :=
  match n, a_rgb, b_rgb with
  | S n', x :: a', y :: b' => Z.abs (x - y) + channel_sum n' a' b'
  | _, _, _ => 0
  end.

Fixpoint leading_channels_distance (pixels_a pixels_b : list Pixel) : Z :=
  match pixels_a, pixels_b with
  | a_rgb :: rest_a, b_rgb :: rest_b =>
      channel_sum (length a_rgb - 3) a_rgb b_rgb
      + leading_channels_distance rest_a rest_b
  | _, _ => 0
  end.

(** ** Strip matching *)

(** The body of the [if] in [_NeighborDistance]: record the new minimum and
    the strip that attains it. *)
Definition record_match (s : Strip) (edge : Border) (distance : Z)
    (neighbor : nat) : Strip :=
  mkStrip (_position s) (_image s)
          (set (_neighbors s) edge (Some neighbor))
          (set (_min_distances s) edge distance)
          (_border_pixels s).

(** [self._NeighborDistance(neighbor, edge, neighbor_edge)], where [self] and
    [neighbor] are references into the store [strips].  It returns the store
    after the call together with the distance. *)
Definition _NeighborDistance (strips : list Strip) (self neighbor : nat)
    (edge neighbor_edge : Border) : result (list Strip * Z) :=
  match strips !! self, strips !! neighbor with
  | Some s, Some nb =>
      let neighbor_pixels := GetBorderPixels nb neighbor_edge in
      let border_pixels := GetBorderPixels s edge in
      distance ← GetDistance neighbor_pixels border_pixels;
      if distance <? get (_min_distances s) edge
      then Ok (<[self := record_match s edge distance neighbor]> strips, distance)
      else Ok (strips, distance)
  | _, _ => Raise DanglingRef
  end.

Definition NeighborDistanceRight (strips : list Strip) (self neighbor : nat)
  : result (list Strip * Z) :=
  _NeighborDistance strips self neighbor R L.

Definition NeighborDistanceLeft (strips : list Strip) (self neighbor : nat)
  : result (list Strip * Z) :=
  _NeighborDistance strips self neighbor L R.

(** One call of [_NeighborDistance]: receiver, argument, [edge] and
    [neighbor_edge]. *)
Abbreviation Call := (nat * nat * Border * Border)%type.

(** The calls one round of the inner loop of [FindNeighbors] makes for the
    outer strip [strip]: nothing when [strip == inner_strip], else
    [NeighborDistanceRight] then [NeighborDistanceLeft]. *)
Definition inner_calls (n strip : nat) : list Call :=
  flat_map (fun inner_strip =>
              if decide (strip = inner_strip) then []
              else [(strip, inner_strip, R, L); (strip, inner_strip, L, R)])
           (seq 0 n).

(** The calls of the two nested [for] loops over a list of [n] strips, in
    execution order. *)
Definition FindNeighbors_calls (n : nat) : list Call :=
  flat_map (inner_calls n) (seq 0 n).

Fixpoint run_calls (calls : list Call) (strips : list Strip)
  : result (list Strip) :=
  match calls with
  | [] => Ok strips
  | (self, neighbor, edge, neighbor_edge) :: rest =>
      '(strips', _) ← _NeighborDistance strips self neighbor edge neighbor_edge;
      run_calls rest strips'
  end.

Definition FindNeighbors (strips : list Strip) : result (list Strip) :=
  run_calls (FindNeighbors_calls (length strips)) strips.

(** ** Edge detection *)

(** Calling a method on the object a reference denotes: [None] has no such
    method. *)
Definition deref (strips : list Strip) (ref : option nat) : result Strip :=
  match ref with
  | None => Raise AttributeError
  | Some i =>
      match strips !! i with
      | Some s => Ok s
      | None => Raise DanglingRef
      end
  end.

(** The [for] loop of [DetectLeftEdge].  The arguments of the first
    [logging.debug] are evaluated before the test, right neighbour first.
    Falling off the loop returns [None]. *)
Fixpoint DetectLeftEdge_loop (idxs : list nat) (strips : list Strip)
  : result (option nat) :=
  match idxs with
  | [] => Ok None
  | strip :: rest =>
      s ← deref strips (Some strip);
      _ ← deref strips (GetRightNeighbor s);
      left ← deref strips (GetLeftNeighbor s);
      if decide (GetRightNeighbor left = Some strip)
      then DetectLeftEdge_loop rest strips
      else Ok (Some strip)
  end.

Definition DetectLeftEdge (strips : list Strip) : result (option nat) :=
  DetectLeftEdge_loop (seq 0 (length strips)) strips.

(** The test of [DetectLeftEdge] on its own: the left neighbour of strip [i]
    does not name [i] as its right neighbour. *)
Definition broken_reciprocity (strips : list Strip) (i : nat) : Prop :=
  ∃ s ln left,
    strips !! i = Some s ∧ GetLeftNeighbor s = Some ln ∧
    strips !! ln = Some left ∧ GetRightNeighbor left ≠ Some i.

(** ** Configuration, border sampling and strip extraction *)

(** The module constants other than [MAX]. *)
Record Config : Type := mkConfig {
  STRIP_WIDTH : Z;
  IMAGE_WIDTH : Z;
  IMAGE_HEIGHT : Z;
  SAMPLING_DISTANCE : Z
}.

(** Their values in the source. *)
Definition source_config : Config := mkConfig 32 640 359 2.

(** [BORDERS = {'l': 0, 'r': STRIP_WIDTH - 1}] *)
Definition BORDERS (cfg : Config) (border : Border) : Z :=
  match border with
  | L => 0
  | R => STRIP_WIDTH cfg - 1
  end.

(** [data[i]] on the sequence [getdata()] returns: an index from 0 up to
    the length reads that entry, an index at or beyond the length raises, an
    index from minus the length up to -1 counts from the end.  What the
    library does with an index below minus the length is not modelled. *)
Definition index_data (data : list Pixel) (i : Z) : result Pixel :=
  if i <? - Z.of_nat (length data) then Raise Unmodelled
  else
    let j := if i <? 0 then Z.of_nat (length data) + i else i in
    match data !! Z.to_nat j with
    | Some p => Ok p
    | None => Raise IndexError
    end.

Definition _GetPixelValue (cfg : Config) (self : Strip) (x y : Z)
  : result Pixel :=
  index_data (_image_data self) (y * STRIP_WIDTH cfg + x).

(** [self._border_pixels[border].append(border_pixel)] *)
Definition append_border (self : Strip) (border : Border) (p : Pixel)
  : Strip :=
  mkStrip (_position self) (_image self) (_neighbors self)
          (_min_distances self)
          (set (_border_pixels self) border
               (get (_border_pixels self) border ++ [p])).

(** The [while] loop of [_LoadBorder].  Next to the strip it returns, in
    order, the coordinates it handed to [_GetPixelValue] (a ghost output,
    used to state which rows are read).  The loop test comes before the fuel
    test, and [_LoadBorder] gives [IMAGE_HEIGHT] units of fuel.  With a
    positive stride the row index reaches [IMAGE_HEIGHT] within that many
    rounds, so fuel does not run out.  With a stride of zero the row index
    stays 0 and the loop never leaves.  With a negative stride the rows go
    up the image from its end and the model does not follow them further
    than its rounds. *)
Fixpoint LoadBorder_loop (cfg : Config) (fuel : nat) (border : Border)
    (x y sample_count : Z) (self : Strip) (reads : list (Z * Z))
  : result (Strip * list (Z * Z)) :=
  if y <? IMAGE_HEIGHT cfg then
    match fuel with
    | O =>
        Raise (if SAMPLING_DISTANCE cfg <? 0 then Unmodelled
               else NonTermination)
    | S fuel' =>
        border_pixel ← _GetPixelValue cfg self x y;
        let self' := append_border self border border_pixel in
        let sample_count' := sample_count + 1 in
        LoadBorder_loop cfg fuel' border x
                        (sample_count' * SAMPLING_DISTANCE cfg) sample_count'
                        self' (reads ++ [(x, y)])
    end
  else Ok (self, reads).

Definition _LoadBorder (cfg : Config) (self : Strip) (border : Border)
  : result (Strip * list (Z * Z)) :=
  let x := BORDERS cfg border in
  LoadBorder_loop cfg (Z.to_nat (IMAGE_HEIGHT cfg)) border x 0 0 self [].

(** [_LoadBorderPixels]: one [_LoadBorder] per key of [BORDERS].  The two
    calls write to different borders, so the order of the keys does not
    show in the result. *)
Definition _LoadBorderPixels (cfg : Config) (self : Strip) : result Strip :=
  '(self1, _) ← _LoadBorder cfg self L;
  '(self2, _) ← _LoadBorder cfg self1 R;
  Ok self2.

(** [Strip.__init__] *)
Definition Strip_init (cfg : Config) (image : PilImage) (position : Z)
  : result Strip :=
  _LoadBorderPixels cfg
    (mkStrip position image (mkDict None None) (mkDict MAX MAX)
             (mkDict [] [])).

(** The pixel of an image at column [x] and row [y], if inside. *)
Definition pixel_at (im : PilImage) (x y : Z) : option Pixel :=
  let '(w, h) := size im in
  if (0 <=? x) && (x <? w) && (0 <=? y) && (y <? h)
  then getdata im !! Z.to_nat (y * w + x)
  else None.

(** PIL's [Image.crop(box)]: the result has the size of the box; where the
    box reaches outside the image the pixels are zero. *)
Definition crop (im : PilImage) (box : Z * Z * Z * Z) : PilImage :=
  let '(x1, y1, x2, y2) := box in
  let w := x2 - x1 in
  let h := y2 - y1 in
  mkImage (bands im) (w, h)
    (flat_map (fun cy =>
       map (fun cx =>
              default (replicate (bands im) 0)
                      (pixel_at im (x1 + Z.of_nat cx) (y1 + Z.of_nat cy)))
           (seq 0 (Z.to_nat w)))
       (seq 0 (Z.to_nat h))).

(** [Image._GetStrip] *)
Definition _GetStrip (cfg : Config) (im : PilImage) (strip_number : Z)
  : result Strip :=
  let x1 := strip_number * STRIP_WIDTH cfg in
  let x2 := x1 + STRIP_WIDTH cfg in
  Strip_init cfg (crop im (x1, 0, x2, IMAGE_HEIGHT cfg)) strip_number.

(** The test [strip_count < IMAGE_WIDTH / STRIP_WIDTH] of the [while] loop
    of [Image.GetStrips], for a positive strip width.  Run by Python 3, [/]
    is true division: the count is compared with the exact quotient, that
    is [strip_count * STRIP_WIDTH < IMAGE_WIDTH].  (Run by Python 2, [/] is
    floor division; the two agree on every count when [STRIP_WIDTH] divides
    [IMAGE_WIDTH].) *)
Definition below_quotient (cfg : Config) (strip_count : Z) : bool :=
  strip_count * STRIP_WIDTH cfg <? IMAGE_WIDTH cfg.

(** The [while] loop of [Image.GetStrips].  The loop test comes before the
    fuel test, and [GetStrips] gives [IMAGE_WIDTH] rounds: with a positive
    strip width the count goes up by one per round and the test fails
    before it has gone that far, so fuel does not run out. *)
Fixpoint GetStrips_loop (cfg : Config) (im : PilImage) (fuel : nat)
    (strip_count : Z) (strips : list Strip) : result (list Strip) :=
  if below_quotient cfg strip_count then
    match fuel with
    | O => Raise NonTermination
    | S fuel' =>
        s ← _GetStrip cfg im strip_count;
        GetStrips_loop cfg im fuel' (strip_count + 1) (strips ++ [s])
    end
  else Ok strips.

(** [Image.GetStrips].  Dividing by a strip width of zero raises at the
    first test.  A negative strip width, which makes every crop box end
    left of its start, is not modelled. *)
Definition GetStrips (cfg : Config) (im : PilImage) : result (list Strip) :=
  if decide (STRIP_WIDTH cfg = 0) then Raise ZeroDivisionError
  else if decide (STRIP_WIDTH cfg < 0) then Raise Unmodelled
  else GetStrips_loop cfg im (Z.to_nat (IMAGE_WIDTH cfg)) 0 [].

(** ** Chain assembly *)

(** The output raster: its size and the [paste] calls made on it so far, in
    order, each with the pasted image and its destination. *)
Record Canvas : Type := mkCanvas {
  canvas_size : Z * Z;
  pastes : list (PilImage * (Z * Z))
}.

(** [Pil.new('RGBA', size)] *)
Definition new_canvas (sz : Z * Z) : Canvas := mkCanvas sz [].

(** [image.paste(im, destination)] *)
Definition paste (image : Canvas) (im : PilImage) (destination : Z * Z)
  : Canvas :=
  mkCanvas (canvas_size image) (pastes image ++ [(im, destination)]).

(** The columns a pasted image occupies. *)
Definition covers (p : PilImage * (Z * Z)) (c : Z) : bool :=
  (fst (snd p) <=? c) && (c <? fst (snd p) + fst (size (fst p))).

(** Where column [c] of the raster comes from: the last paste that covers
    it, with the column inside the pasted image.  The raster has the columns
    from 0 up to its width only; what is pasted beyond them is cut off. *)
Definition column_source (image : Canvas) (c : Z) : option (PilImage * Z) :=
  if (0 <=? c) && (c <? fst (canvas_size image)) then
    fold_left (fun acc p =>
                 if covers p c then Some (fst p, c - fst (snd p)) else acc)
              (pastes image) None
  else None.

(** [OrderStrips(image, strip, count)] recurses once per slot, and the
    interpreter bounds the depth of a recursion.  [room] is the number of
    nested activations of [OrderStrips] whose calls the interpreter still
    has frames for: its recursion limit less the frames in use at the first
    call and the frames the calls of one activation need.  An activation
    first tests the width bound and returns at it; below it, it looks up
    [strip.GetPosition], which raises on [None]; with no room left a call
    then raises [RecursionError] before anything is pasted; otherwise the
    strip is pasted and the next activation starts with one unit of room
    less.  A recursion that would never end runs out of room as well. *)
Fixpoint OrderStrips_rec (cfg : Config) (room : nat) (strips : list Strip)
    (image : Canvas) (strip : option nat) (count : Z) : result Canvas :=
  let x := count * STRIP_WIDTH cfg in
  if IMAGE_WIDTH cfg <=? x then Ok image
  else
    s ← deref strips strip;
    match room with
    | O => Raise RecursionError
    | S room' =>
        let destination := (x, 0) in
        let image' := paste image (GetImage s) destination in
        OrderStrips_rec cfg room' strips image' (GetRightNeighbor s) (count + 1)
    end.

Definition OrderStrips (cfg : Config) (room : nat) (strips : list Strip)
    (image : Canvas) (strip : option nat) (count : Z) : result Canvas :=
  OrderStrips_rec cfg room strips image strip count.

(** [main], from the loaded image to the raster handed to [save], with the
    [room] the interpreter leaves to [OrderStrips].  A [left_edge] of [None]
    is passed on to [OrderStrips] as it is. *)
Definition main (cfg : Config) (room : nat) (img : PilImage)
  : result Canvas :=
  strips ← GetStrips cfg img;
  strips' ← FindNeighbors strips;
  left_edge ← DetectLeftEdge strips';
  let unshredded := new_canvas (size img) in
  OrderStrips cfg room strips' unshredded left_edge 0.

(** ** Notions used to state the properties *)

(** In [FindNeighbors] the border of the candidate that is compared is
    always the one facing [edge]. *)
Definition opposite (edge : Border) : Border :=
  match edge with L => R | R => L end.

(** The score of [neighbor] as a candidate on side [edge] of [self]: the
    distance [_NeighborDistance] computes for this pair. *)
Definition candidate_score (strips : list Strip) (self neighbor : nat)
    (edge : Border) : result Z :=
  match strips !! self, strips !! neighbor with
  | Some s, Some nb =>
      GetDistance (GetBorderPixels nb (opposite edge)) (GetBorderPixels s edge)
  | _, _ => Raise DanglingRef
  end.

(** A strip as [Strip.__init__] leaves its matching fields. *)
Definition fresh (s : Strip) : Prop :=
  _neighbors s = mkDict None None ∧ _min_distances s = mkDict MAX MAX.

(** No strip of the store is its own best neighbour. *)
Definition no_self_neighbor (strips : list Strip) : Prop :=
  ∀ i s edge, strips !! i = Some s → get (_neighbors s) edge ≠ Some i.

(** Every reference held in the store points into the store. *)
Definition refs_valid (strips : list Strip) : Prop :=
  ∀ i s edge j,
    strips !! i = Some s → get (_neighbors s) edge = Some j →
    (j < length strips)%nat.

(** A matched store: every strip has a neighbour on both sides. *)
Definition matched (strips : list Strip) : Prop :=
  ∀ i s edge, strips !! i = Some s → is_Some (get (_neighbors s) edge).

(** The strip reached from [start] by following [k] right-neighbour
    links. *)
Fixpoint nth_right (strips : list Strip) (start : option nat) (k : nat)
  : option nat :=
  match k with
  | O => start
  | S k' =>
      match start with
      | Some i =>
          match strips !! i with
          | Some s => nth_right strips (GetRightNeighbor s) k'
          | None => None
          end
      | None => None
      end
  end.

(** The number of samples [_LoadBorder] takes: the multiples of the stride
    below the image height. *)
Definition sample_count (cfg : Config) : nat :=
  Z.to_nat ((IMAGE_HEIGHT cfg + SAMPLING_DISTANCE cfg - 1)
            / SAMPLING_DISTANCE cfg).

(** The number of strips [GetStrips] cuts: the multiples of the strip width
    below the image width. *)
Definition strip_slots (cfg : Config) : nat :=
  Z.to_nat ((IMAGE_WIDTH cfg + STRIP_WIDTH cfg - 1) / STRIP_WIDTH cfg).

(** The rows [0, SAMPLING_DISTANCE, 2 * SAMPLING_DISTANCE, ...] of the first
    [n] samples. *)
Definition sample_rows (cfg : Config) (n : nat) : list Z :=
  map (fun k => Z.of_nat k * SAMPLING_DISTANCE cfg) (seq 0 n).

(** A pixel with four channels, each a byte. *)
Definition rgba_pixel (p : Pixel) : Prop :=
  length p = 4%nat ∧ Forall (fun c => 0 ≤ c ≤ 255) p.

(** What one call of [_NeighborDistance] does to the receiver once the
    distance is known. *)
Definition keep_min (s : Strip) (edge : Border) (distance : Z)
    (neighbor : nat) : Strip :=
  if distance <? get (_min_distances s) edge
  then record_match s edge distance neighbor
  else s.

(** Two stores that differ at most in the matching fields of their strips. *)
Definition same_static (strips strips' : list Strip) : Prop :=
  Forall2 (fun s s' => _position s = _position s' ∧ _image s = _image s' ∧
                       _border_pixels s = _border_pixels s')
          strips strips'.

(** The pair (best neighbour, best distance) held for side [edge] of strip
    [i] is the first minimum among the candidates below [m]: either no
    candidate went below the sentinel, or the held one is a candidate below
    the sentinel, no candidate is closer, and every earlier candidate is
    strictly farther. *)
Definition best_upto (strips : list Strip) (i : nat) (edge : Border) (m : nat)
    (best : option nat) (distance : Z) : Prop :=
  match best with
  | Some j =>
      (j < m)%nat ∧ j ≠ i ∧ distance < MAX ∧
      candidate_score strips i j edge = Ok distance ∧
      ∀ k dk, (k < m)%nat → k ≠ i →
              candidate_score strips i k edge = Ok dk →
              distance ≤ dk ∧ ((k < j)%nat → distance < dk)
  | None =>
      distance = MAX ∧
      ∀ k dk, (k < m)%nat → k ≠ i →
              candidate_score strips i k edge = Ok dk → MAX ≤ dk
  end.

(** The same for both sides of a strip [s] standing at index [i]. *)
Definition strip_best_upto (strips : list Strip) (i : nat) (m : nat)
    (s : Strip) : Prop :=
  ∀ edge, best_upto strips i edge m (get (_neighbors s) edge)
                    (get (_min_distances s) edge).

(** Every score [FindNeighbors] asks for can be computed. *)
Definition scores_defined (strips : list Strip) : Prop :=
  ∀ i j edge, (i < length strips)%nat → (j < length strips)%nat → i ≠ j →
    ∃ d, candidate_score strips i j edge = Ok d.

(** An image with the shape of a strip: [STRIP_WIDTH] wide, [IMAGE_HEIGHT]
    high, with one entry of [getdata()] per pixel.  This is the shape of
    what [crop((x1, 0, x1 + STRIP_WIDTH, IMAGE_HEIGHT))] returns. *)
Definition strip_shaped (cfg : Config) (im : PilImage) : Prop :=
  size im = (STRIP_WIDTH cfg, IMAGE_HEIGHT cfg) ∧
  length (getdata im) = Z.to_nat (STRIP_WIDTH cfg * IMAGE_HEIGHT cfg).

(** A strip after several [append]s to one of its borders. *)
Definition extend_border (self : Strip) (border : Border)
    (samples : list Pixel) : Strip :=
  mkStrip (_position self) (_image self) (_neighbors self)
          (_min_distances self)
          (set (_border_pixels self) border
               (get (_border_pixels self) border ++ samples)).

(** The channel loop over [a_rgb] finds every channel it reads in [b_rgb]. *)
Definition channels_available (a_rgb b_rgb : Pixel) : Prop :=
  (length a_rgb - 3 ≤ length b_rgb)%nat.

(** Two pixels with the same number of channels. *)
Definition same_channels (a_rgb b_rgb : Pixel) : Prop :=
  length a_rgb = length b_rgb.

(** A call whose receiver and argument are different strips. *)
Definition distinct_call (c : Call) : Prop := c.1.1.1 ≠ c.1.1.2.

(** Every border of the store holds [n] RGBA samples. *)
Definition rgba_borders (n : nat) (strips : list Strip) : Prop :=
  ∀ s edge, s ∈ strips →
    length (GetBorderPixels s edge) = n ∧
    Forall rgba_pixel (GetBorderPixels s edge).

(** Pastes laid side by side: the [k]-th at column [k * STRIP_WIDTH], each
    [STRIP_WIDTH] wide. *)
Definition side_by_side (cfg : Config) (ps : list (PilImage * (Z * Z)))
  : Prop :=
  ∀ k p, ps !! k = Some p →
         fst (snd p) = Z.of_nat k * STRIP_WIDTH cfg ∧
         fst (size (fst p)) = STRIP_WIDTH cfg.

(** The rows of the samples [k], [k + 1], ..., [k + d - 1]. *)
Definition rows_from (cfg : Config) (k d : nat) : list Z :=
  map (fun j => Z.of_nat j * SAMPLING_DISTANCE cfg) (seq k d).

(** ** Concrete inputs *)

(** An opaque pixel with red value [v]. *)
Definition red (v : Z) : Pixel := [v; 0; 0; 255].

(** Two one-sample borders of RGB pixels that differ in red. *)
Definition rgb_a : list Pixel := [[1; 2; 3]].
Definition rgb_b : list Pixel := [[5; 2; 3]].

(** Two borders of RGBA pixels. *)
Definition rgba_a : list Pixel := [[1; 2; 3; 255]; [10; 20; 30; 255]].
Definition rgba_b : list Pixel := [[5; 9; 9; 255]; [7; 0; 0; 0]].

(** A picture of three strips X, Y, Z, two columns wide and two rows high,
    shredded into the order Y, Z, X.  X ends in reds 10 and 11 where Y starts
    with 12 and 13; Y ends in 50 where Z starts with 52. *)
Definition example_config : Config := mkConfig 2 6 2 1.

Definition example_image : PilImage :=
  mkImage 4 (6, 2)
    [red 12; red 50; red 52; red 100; red 200; red 10;
     red 13; red 50; red 52; red 100; red 200; red 11].

Definition strip_y : PilImage :=
  mkImage 4 (2, 2) [red 12; red 50; red 13; red 50].
Definition strip_z : PilImage :=
  mkImage 4 (2, 2) [red 52; red 100; red 52; red 100].
Definition strip_x : PilImage :=
  mkImage 4 (2, 2) [red 200; red 10; red 200; red 11].

(** The strips [GetStrips] makes of it. *)
Definition example_strips : list Strip :=
  [ mkStrip 0 strip_y (mkDict None None) (mkDict MAX MAX)
            (mkDict [red 12; red 13] [red 50; red 50]);
    mkStrip 1 strip_z (mkDict None None) (mkDict MAX MAX)
            (mkDict [red 52; red 52] [red 100; red 100]);
    mkStrip 2 strip_x (mkDict None None) (mkDict MAX MAX)
            (mkDict [red 200; red 200] [red 10; red 11]) ].

(** The same strips after [FindNeighbors]. *)
Definition example_matched : list Strip :=
  [ mkStrip 0 strip_y (mkDict (Some 2%nat) (Some 1%nat)) (mkDict 4 4)
            (mkDict [red 12; red 13] [red 50; red 50]);
    mkStrip 1 strip_z (mkDict (Some 0%nat) (Some 0%nat)) (mkDict 4 175)
            (mkDict [red 52; red 52] [red 100; red 100]);
    mkStrip 2 strip_x (mkDict (Some 1%nat) (Some 0%nat)) (mkDict 200 4)
            (mkDict [red 200; red 200] [red 10; red 11]) ].

(** Two strips only: each is the other's neighbour on both sides. *)
Definition pair_strips : list Strip :=
  [ mkStrip 0 strip_y (mkDict None None) (mkDict MAX MAX)
            (mkDict [red 12; red 13] [red 50; red 50]);
    mkStrip 1 strip_z (mkDict None None) (mkDict MAX MAX)
            (mkDict [red 52; red 52] [red 100; red 100]) ].

Definition pair_matched : list Strip :=
  [ mkStrip 0 strip_y (mkDict (Some 1%nat) (Some 1%nat)) (mkDict 175 4)
            (mkDict [red 12; red 13] [red 50; red 50]);
    mkStrip 1 strip_z (mkDict (Some 0%nat) (Some 0%nat)) (mkDict 4 175)
            (mkDict [red 52; red 52] [red 100; red 100]) ].

(** Three strips of which the last two have the same borders. *)
Definition tie_strips : list Strip :=
  [ mkStrip 0 strip_y (mkDict None None) (mkDict MAX MAX)
            (mkDict [red 12; red 13] [red 50; red 50]);
    mkStrip 1 strip_z (mkDict None None) (mkDict MAX MAX)
            (mkDict [red 52; red 52] [red 100; red 100]);
    mkStrip 2 strip_z (mkDict None None) (mkDict MAX MAX)
            (mkDict [red 52; red 52] [red 100; red 100]) ].

(** A picture that is one strip wide. *)
Definition one_strip_config : Config := mkConfig 2 2 2 1.
Definition one_strip_image : PilImage := strip_y.

(** Room for nested activations of [OrderStrips], of the order an
    interpreter with a recursion limit of 1000 leaves. *)
Definition example_room : nat := 991.

(** ** Further notions and inputs *)

(** Two one-sample borders of pixels with five channels. *)
Definition five_a : list Pixel := [[1; 2; 3; 4; 5]].
Definition five_b : list Pixel := [[4; 6; 0; 0; 0]].

(** A third border of RGBA pixels, next to [rgba_a] and [rgba_b]. *)
Definition rgba_c : list Pixel := [[9; 0; 0; 255]; [0; 1; 2; 3]].

(** A call that compares the border [edge] of the receiver with the border
    of the argument that faces it. *)
Definition facing_call (c : Call) : Prop := c.2 = opposite c.1.2.

(** The matching fields of a strip at index [i] agree with the scores of the
    store [strips]: a stored neighbour scores the stored distance, which is
    below the sentinel; without a neighbour the distance is the sentinel. *)
Definition consistent_match (strips : list Strip) (i : nat) (s : Strip)
  : Prop :=
  ∀ edge,
    match get (_neighbors s) edge with
    | Some j =>
        candidate_score strips i j edge = Ok (get (_min_distances s) edge) ∧
        get (_min_distances s) edge < MAX
    | None => get (_min_distances s) edge = MAX
    end.

(** What [_GetStrip] makes of strip number [k] of an image: the strip is
    fresh, stands at position [k], owns the crop of its [STRIP_WIDTH]
    columns, and holds [sample_count] samples on either border, taken from
    the edge columns of that crop at the sampled rows. *)
Definition extracted_strip (cfg : Config) (im : PilImage) (k : nat)
    (s : Strip) : Prop :=
  fresh s ∧
  _position s = Z.of_nat k ∧
  _image s = crop im (Z.of_nat k * STRIP_WIDTH cfg, 0,
                      Z.of_nat k * STRIP_WIDTH cfg + STRIP_WIDTH cfg,
                      IMAGE_HEIGHT cfg) ∧
  ∀ border,
    length (GetBorderPixels s border) = sample_count cfg ∧
    Forall2 (fun y p => pixel_at (_image s) (BORDERS cfg border) y = Some p)
            (sample_rows cfg (sample_count cfg))
            (GetBorderPixels s border).

(** A strip object before its borders are loaded. *)
Definition blank_strip (image : PilImage) (position : Z) : Strip :=
  mkStrip position image (mkDict None None) (mkDict MAX MAX) (mkDict [] []).

(** The example configuration with a stride of zero. *)
Definition zero_stride_config : Config := mkConfig 2 6 2 0.


(** A call whose receiver and argument are strips of a store of [n]
    strips. *)
Definition call_within (n : nat) (c : Call) : Prop :=
  (c.1.1.1 < n)%nat ∧ (c.1.1.2 < n)%nat.

(** The run of a list of calls with a counter of the calls entered, the
    one that raises included. *)
Fixpoint run_calls_counting (calls : list Call) (strips : list Strip)
    (entered : nat) : result (list Strip) * nat :=
  match calls with
  | [] => (Ok strips, entered)
  | (self, neighbor, edge, neighbor_edge) :: rest =>
      match _NeighborDistance strips self neighbor edge neighbor_edge with
      | Ok (strips', _) => run_calls_counting rest strips' (S entered)
      | Raise e => (Raise e, S entered)
      end
  end.

(** Two strips whose facing borders have different lengths. *)
Definition ragged_strips : list Strip :=
  [ mkStrip 0 strip_y (mkDict None None) (mkDict MAX MAX)
            (mkDict [red 12; red 13] [red 50; red 50]);
    mkStrip 1 strip_z (mkDict None None) (mkDict MAX MAX)
            (mkDict [red 52] [red 100]) ].

(** * Properties *)

Lemma result_bind_Ok {A B} (f : A → result B) (m : result A) (a : A) :
  m = Ok a → (m ≫= f) = f a.
Proof. intros ->. reflexivity. Qed.

Lemma result_bind_inv {A B} (f : A → result B) (m : result A) (b : B) :
  (m ≫= f) = Ok b → ∃ a, m = Ok a ∧ f a = Ok b.
Proof. destruct m as [a|e]; [eauto | discriminate]. Qed.

Section Dict_facts.
Context {A : Type}.
Implicit Types (d : Dict A) (b : Border).

Lemma get_set_eq d b v : get (set d b v) b = v.
Proof. destruct b; reflexivity. Qed.

Lemma get_set_ne d b b' v : b ≠ b' → get (set d b v) b' = get d b'.
Proof. intros H. destruct b, b'; try reflexivity; congruence. Qed.

Lemma get_set d b b' v :
    get (set d b v) b' = if decide (b = b') then v else get d b'.
Proof.
    destruct (decide (b = b')) as [->|Hne];
      [apply get_set_eq | apply get_set_ne, Hne].
Qed.
End Dict_facts.

Section Matching.

Implicit Types (strips : list Strip) (s : Strip) (edge : Border).

(** *** One call *)

Lemma keep_min_static s edge d j :
  _position (keep_min s edge d j) = _position s ∧
  _image (keep_min s edge d j) = _image s ∧
  _border_pixels (keep_min s edge d j) = _border_pixels s.
Proof. unfold keep_min. destruct (d <? _); auto. Qed.

Lemma keep_min_neighbor s edge d j edge' :
  get (_neighbors (keep_min s edge d j)) edge'
  = if decide (edge = edge')
    then (if d <? get (_min_distances s) edge then Some j
          else get (_neighbors s) edge')
    else get (_neighbors s) edge'.
Proof.
  unfold keep_min. destruct (d <? _); simpl.
  - apply get_set.
  - destruct (decide _); reflexivity.
Qed.

Lemma keep_min_distance s edge d j edge' :
  get (_min_distances (keep_min s edge d j)) edge'
  = if decide (edge = edge')
    then Z.min d (get (_min_distances s) edge')
    else get (_min_distances s) edge'.
Proof.
  unfold keep_min. destruct (Z.ltb_spec d (get (_min_distances s) edge)); simpl.
  - rewrite get_set. destruct (decide _) as [<-|]; [lia | reflexivity].
  - destruct (decide _) as [<-|]; [lia | reflexivity].
Qed.

(** A successful call stores [keep_min] at the receiver. *)
Lemma NeighborDistance_inv strips self neighbor edge neighbor_edge strips' d :
  _NeighborDistance strips self neighbor edge neighbor_edge = Ok (strips', d) →
  ∃ s nb, strips !! self = Some s ∧ strips !! neighbor = Some nb ∧
          GetDistance (GetBorderPixels nb neighbor_edge)
                      (GetBorderPixels s edge) = Ok d ∧
          strips' = <[self := keep_min s edge d neighbor]> strips.
Proof.
  unfold _NeighborDistance.
  destruct (strips !! self) as [s|] eqn:Hs; [|discriminate].
  destruct (strips !! neighbor) as [nb|] eqn:Hnb; [|discriminate].
  intros H. apply result_bind_inv in H as (d' & Hd & H).
  exists s, nb. unfold keep_min.
  destruct (d' <? _) eqn:Hlt; inversion H; subst; rewrite Hlt;
    repeat split; try assumption; try reflexivity.
  symmetry. apply list_insert_id, Hs.
Qed.

Lemma NeighborDistance_score strips self neighbor edge s d :
  strips !! self = Some s →
  candidate_score strips self neighbor edge = Ok d →
  _NeighborDistance strips self neighbor edge (opposite edge)
  = Ok (<[self := keep_min s edge d neighbor]> strips, d).
Proof.
  unfold candidate_score, _NeighborDistance. intros Hs. rewrite Hs.
  destruct (strips !! neighbor) as [nb|]; [|discriminate].
  intros Hd. rewrite (result_bind_Ok _ _ _ Hd). unfold keep_min.
  destruct (d <? _); [reflexivity|].
  rewrite (list_insert_id _ _ _ Hs). reflexivity.
Qed.

(** *** Sequences of calls *)

Lemma run_calls_app calls1 calls2 strips :
  run_calls (calls1 ++ calls2) strips
  = run_calls calls1 strips ≫= run_calls calls2.
Proof.
  revert strips.
  induction calls1 as [|[[[self nb] e] ne] calls1 IH]; intros strips;
    [reflexivity|].
  cbn [app run_calls].
  destruct (_NeighborDistance strips self nb e ne) as [[strips' d]|err];
    [apply IH | reflexivity].
Qed.

Lemma same_static_refl strips : same_static strips strips.
Proof. apply Forall2_same_length_lookup_2; [reflexivity|]. intros; simplify_eq. auto. Qed.

Lemma same_static_insert strips strips0 i s s0 :
  same_static strips strips0 →
  strips0 !! i = Some s0 →
  _position s = _position s0 → _image s = _image s0 →
  _border_pixels s = _border_pixels s0 →
  same_static (<[i := s]> strips) strips0.
Proof.
  intros H Hs0 ? ? ?. rewrite <- (list_insert_id strips0 i s0 Hs0).
  apply Forall2_insert; auto.
Qed.

Lemma candidate_score_static strips strips0 i j edge :
  same_static strips strips0 →
  candidate_score strips i j edge = candidate_score strips0 i j edge.
Proof.
  intros H. unfold candidate_score, GetBorderPixels.
  destruct (strips !! i) as [s|] eqn:Hs.
  - destruct (Forall2_lookup_l _ _ _ _ _ H Hs) as (s0 & -> & _ & _ & Hb).
    destruct (strips !! j) as [nb|] eqn:Hnb.
    + destruct (Forall2_lookup_l _ _ _ _ _ H Hnb) as (nb0 & -> & _ & _ & Hb').
      rewrite Hb, Hb'. reflexivity.
    + apply lookup_ge_None_1 in Hnb. rewrite (Forall2_length _ _ _ H) in Hnb.
      rewrite (lookup_ge_None_2 _ _ Hnb). reflexivity.
  - apply lookup_ge_None_1 in Hs. rewrite (Forall2_length _ _ _ H) in Hs.
    rewrite (lookup_ge_None_2 _ _ Hs). reflexivity.
Qed.

Lemma best_upto_static strips strips0 i edge m best d :
  same_static strips strips0 →
  best_upto strips i edge m best d → best_upto strips0 i edge m best d.
Proof.
  intros H. unfold best_upto.
  destruct best as [j|].
  - intros (? & ? & ? & Hj & Hall). rewrite (candidate_score_static _ _ _ _ _ H) in Hj.
    split_and!; try assumption. intros k dk ? ? Hk.
    rewrite <- (candidate_score_static _ _ _ _ _ H) in Hk.
    apply (Hall k dk); auto.
  - intros (? & Hall). split; [assumption|]. intros k dk ? ? Hk.
    rewrite <- (candidate_score_static _ _ _ _ _ H) in Hk. eauto.
Qed.

(** *** The first minimum, one candidate at a time *)

Lemma best_upto_fresh strips i edge : best_upto strips i edge 0 None MAX.
Proof. split; [reflexivity | intros; lia]. Qed.

Lemma best_upto_skip strips i edge best d :
  best_upto strips i edge i best d → best_upto strips i edge (S i) best d.
Proof.
  unfold best_upto. destruct best as [j|].
  - intros (? & ? & ? & ? & Hall). split_and!; try assumption; try lia.
    intros k dk ? ? ?. apply (Hall k dk); auto; lia.
  - intros (? & Hall). split; [assumption|]. intros k dk ? ? ?.
    apply (Hall k dk); auto; lia.
Qed.

Lemma best_upto_candidate strips i edge m best d dm :
  m ≠ i →
  candidate_score strips i m edge = Ok dm →
  best_upto strips i edge m best d →
  best_upto strips i edge (S m)
            (if dm <? d then Some m else best) (Z.min dm d).
Proof.
  intros Hne Hm Hbest.
  destruct (Z.ltb_spec dm d) as [Hlt|Hge].
  - rewrite Z.min_l by lia.
    assert (d ≤ MAX ∧ ∀ k dk, (k < m)%nat → k ≠ i →
              candidate_score strips i k edge = Ok dk → d ≤ dk) as [HM Hall].
    { destruct best as [j|]; simpl in Hbest.
      - destruct Hbest as (? & ? & ? & ? & Hall). split; [lia|].
        intros k dk ? ? ?. apply (Hall k dk); auto.
      - destruct Hbest as (-> & Hall). split; [lia|]. exact Hall. }
    simpl. split_and!; try assumption; try lia.
    intros k dk ? ? Hk. destruct (decide (k = m)) as [->|].
    + assert (dk = dm) by congruence. lia.
    + assert (d ≤ dk) by (apply (Hall k dk); auto; lia). lia.
  - rewrite Z.min_r by lia.
    destruct best as [j|]; simpl in *.
    + destruct Hbest as (? & ? & ? & ? & Hall).
      split_and!; try assumption; try lia.
      intros k dk ? ? Hk. destruct (decide (k = m)) as [->|].
      * assert (dk = dm) by congruence. lia.
      * apply (Hall k dk); auto; lia.
    + destruct Hbest as (-> & Hall). split; [reflexivity|].
      intros k dk ? ? Hk. destruct (decide (k = m)) as [->|].
      * assert (dk = dm) by congruence. lia.
      * apply (Hall k dk); auto; lia.
Qed.

Lemma strip_best_upto_keep strips i m s dr dl :
  m ≠ i →
  candidate_score strips i m R = Ok dr →
  candidate_score strips i m L = Ok dl →
  strip_best_upto strips i m s →
  strip_best_upto strips i (S m) (keep_min (keep_min s R dr m) L dl m).
Proof.
  intros Hne Hr Hl Hs edge.
  rewrite !keep_min_neighbor, !keep_min_distance.
  destruct edge; simpl.
  - apply (best_upto_candidate _ _ _ _ _ _ _ Hne Hl (Hs L)).
  - apply (best_upto_candidate _ _ _ _ _ _ _ Hne Hr (Hs R)).
Qed.

End Matching.

Section GetDistance_facts.

Implicit Types (a_rgb b_rgb : Pixel) (pixels_a pixels_b : list Pixel).

(** The channel loop over [range(n)] shifted by [k] adds up the first [n]
    channels from [k] on, provided both tuples are long enough. *)
Lemma channel_loop_seq n : ∀ k a_rgb b_rgb distance,
  (k + n ≤ length a_rgb)%nat → (k + n ≤ length b_rgb)%nat →
  channel_loop (seq k n) a_rgb b_rgb distance
  = Ok (distance + channel_sum n (drop k a_rgb) (drop k b_rgb)).
Proof.
  induction n as [|n IH]; intros k a b d Ha Hb; cbn [seq channel_loop].
  - simpl. f_equal. lia.
  - destruct (lookup_lt_is_Some_2 a k) as [x Hx]; [lia|].
    destruct (lookup_lt_is_Some_2 b k) as [y Hy]; [lia|].
    rewrite Hx, Hy, IH by lia.
    rewrite (drop_S a x k Hx), (drop_S b y k Hy). simpl. f_equal. lia.
Qed.

Lemma channel_loop_range a_rgb b_rgb distance :
  channels_available a_rgb b_rgb →
  channel_loop (channel_range a_rgb) a_rgb b_rgb distance
  = Ok (distance + channel_sum (length a_rgb - 3) a_rgb b_rgb).
Proof.
  intros H. unfold channel_range.
  rewrite channel_loop_seq by (simpl; unfold channels_available in H; lia).
  reflexivity.
Qed.

Lemma pixel_loop_seq pixels_a pixels_b :
  Forall2 channels_available pixels_a pixels_b →
  ∀ pre_a pre_b distance,
    length pre_a = length pre_b →
    pixel_loop (seq (length pre_a) (length pixels_a))
               (pre_a ++ pixels_a) (pre_b ++ pixels_b) distance
    = Ok (distance + leading_channels_distance pixels_a pixels_b).
Proof.
  induction 1 as [|a b rest_a rest_b Hab _ IH]; intros pre_a pre_b d Hlen.
  - simpl. f_equal. lia.
  - cbn [length seq pixel_loop leading_channels_distance].
    rewrite list_lookup_middle by reflexivity.
    rewrite list_lookup_middle by exact Hlen.
    rewrite (result_bind_Ok _ _ _ (channel_loop_range a b d Hab)).
    specialize (IH (pre_a ++ [a]) (pre_b ++ [b])).
    rewrite !length_app in IH. simpl in IH.
    rewrite <- !(assoc_L (++)) in IH. simpl in IH.
    replace (S (length pre_a)) with (length pre_a + 1)%nat by lia.
    rewrite IH by lia. f_equal. lia.
Qed.

(** [GetDistance] in closed form. *)
Lemma GetDistance_leading_channels pixels_a pixels_b :
  Forall2 channels_available pixels_a pixels_b →
  GetDistance pixels_a pixels_b
  = Ok (leading_channels_distance pixels_a pixels_b).
Proof.
  intros H. unfold GetDistance.
  apply (pixel_loop_seq _ _ H [] [] 0). reflexivity.
Qed.

Lemma channel_sum_nonneg n : ∀ a_rgb b_rgb, 0 ≤ channel_sum n a_rgb b_rgb.
Proof.
  induction n as [|n IH]; intros [|x a] [|y b]; simpl; try lia.
  specialize (IH a b). lia.
Qed.

Lemma leading_channels_distance_nonneg pixels_a :
  ∀ pixels_b, 0 ≤ leading_channels_distance pixels_a pixels_b.
Proof.
  induction pixels_a as [|a rest IH]; intros [|b rest']; simpl; try lia.
  specialize (IH rest'). pose proof (channel_sum_nonneg (length a - 3) a b). lia.
Qed.

Lemma channel_sum_sym n : ∀ a_rgb b_rgb,
  channel_sum n a_rgb b_rgb = channel_sum n b_rgb a_rgb.
Proof.
  induction n as [|n IH]; intros [|x a] [|y b]; simpl; try reflexivity.
  rewrite (IH a b). f_equal. lia.
Qed.

Lemma same_channels_available pixels_a pixels_b :
  Forall2 same_channels pixels_a pixels_b →
  Forall2 channels_available pixels_a pixels_b.
Proof.
  intros H. eapply Forall2_impl; [exact H|].
  unfold same_channels, channels_available. lia.
Qed.

Lemma leading_channels_distance_sym pixels_a pixels_b :
  Forall2 same_channels pixels_a pixels_b →
  leading_channels_distance pixels_a pixels_b
  = leading_channels_distance pixels_b pixels_a.
Proof.
  induction 1 as [|a b rest_a rest_b Hab _ IH]; simpl; [reflexivity|].
  rewrite IH, channel_sum_sym, Hab. reflexivity.
Qed.

Lemma four_channels_first a_rgb b_rgb :
  length a_rgb = 4%nat → length b_rgb = 4%nat →
  channel_sum (length a_rgb - 3) a_rgb b_rgb
  = Z.abs (first_channel a_rgb - first_channel b_rgb).
Proof.
  intros Ha Hb. rewrite Ha.
  destruct a_rgb as [|x a]; [discriminate|].
  destruct b_rgb as [|y b]; [discriminate|].
  simpl. lia.
Qed.

Lemma four_channels_distance pixels_a : ∀ pixels_b,
  Forall (fun p => length p = 4%nat) pixels_a →
  Forall (fun p => length p = 4%nat) pixels_b →
  leading_channels_distance pixels_a pixels_b
  = first_channel_distance pixels_a pixels_b.
Proof.
  induction pixels_a as [|a rest IH]; intros [|b rest'] Ha Hb; simpl;
    try reflexivity.
  inversion Ha; inversion Hb; subst.
  rewrite IH, four_channels_first by assumption. reflexivity.
Qed.

Lemma three_channels_distance pixels_a : ∀ pixels_b,
  Forall (fun p => length p = 3%nat) pixels_a →
  leading_channels_distance pixels_a pixels_b = 0.
Proof.
  induction pixels_a as [|a rest IH]; intros [|b rest'] Ha; simpl;
    try reflexivity.
  inversion Ha as [|? ? Ha1 Ha2]; subst.
  rewrite IH, Ha1 by assumption. simpl. destruct a, b; reflexivity.
Qed.

Lemma Forall2_by_length {A B} (P : A → B → Prop) (xs : list A) (ys : list B) :
  length xs = length ys →
  (∀ x y, x ∈ xs → y ∈ ys → P x y) →
  Forall2 P xs ys.
Proof.
  intros Hlen HP. apply Forall2_same_length_lookup_2; [exact Hlen|].
  intros i x y Hx Hy. apply HP; eapply list_elem_of_lookup_2; eassumption.
Qed.

End GetDistance_facts.

Section Loops.

Implicit Types (strips : list Strip) (s : Strip) (edge : Border).

Lemma inner_calls_S m i :
  inner_calls (S m) i
  = inner_calls m i
    ++ (if decide (i = m) then []
        else [(i, m, R, L); (i, m, L, R)]).
Proof.
  unfold inner_calls. rewrite seq_S, flat_map_app. simpl.
  rewrite app_nil_r. reflexivity.
Qed.

Lemma fresh_best_upto strips i s :
  fresh s → strip_best_upto strips i 0 s.
Proof. intros [Hn Hd] edge. rewrite Hn, Hd. destruct edge; apply best_upto_fresh. Qed.

(** The inner loop for the outer strip [i], run up to candidate [m]. *)
Lemma inner_calls_run strips i s0 :
  strips !! i = Some s0 →
  strip_best_upto strips i 0 s0 →
  ∀ m,
    (∀ k edge, (k < m)%nat → k ≠ i →
               ∃ d, candidate_score strips i k edge = Ok d) →
    ∃ s, run_calls (inner_calls m i) strips = Ok (<[i := s]> strips) ∧
         _position s = _position s0 ∧ _image s = _image s0 ∧
         _border_pixels s = _border_pixels s0 ∧
         strip_best_upto strips i m s.
Proof.
  intros Hi H0. induction m as [|m IH]; intros Hscores.
  - exists s0. rewrite (list_insert_id _ _ _ Hi). auto.
  - assert (Hbelow : ∀ k edge, (k < m)%nat → k ≠ i →
                       ∃ d, candidate_score strips i k edge = Ok d)
      by (intros k edge ? ?; apply Hscores; [lia | assumption]).
    destruct (IH Hbelow) as (s & Hrun & Hpos & Himg & Hbor & Hbest).
    rewrite inner_calls_S, run_calls_app, (result_bind_Ok _ _ _ Hrun).
    destruct (decide (i = m)) as [->|Hne].
    + exists s. split_and!; try assumption; [reflexivity|].
      intros edge. apply best_upto_skip, Hbest.
    + assert (Hst : same_static (<[i := s]> strips) strips)
        by (apply (same_static_insert _ _ _ _ s0); auto using same_static_refl).
      assert (Hlt : (i < length strips)%nat) by (eapply lookup_lt_Some, Hi).
      destruct (Hscores m R) as [dr Hr]; [lia | congruence |].
      destruct (Hscores m L) as [dl Hl]; [lia | congruence |].
      exists (keep_min (keep_min s R dr m) L dl m).
      split_and!.
      * assert (Hst' : same_static (<[i := keep_min s R dr m]> strips) strips).
        { apply (same_static_insert _ _ _ _ s0); auto using same_static_refl;
            destruct (keep_min_static s R dr m) as (? & ? & ?); congruence. }
        pose proof (NeighborDistance_score _ i m R s dr
                      (list_lookup_insert_eq _ _ _ Hlt)
                      (eq_trans (candidate_score_static _ _ _ _ _ Hst) Hr))
          as Hcall1.
        pose proof (NeighborDistance_score _ i m L _ dl
                      (list_lookup_insert_eq _ _ _ Hlt)
                      (eq_trans (candidate_score_static _ _ _ _ _ Hst') Hl))
          as Hcall2.
        rewrite list_insert_insert_eq in Hcall1, Hcall2.
        cbn [opposite] in Hcall1, Hcall2. cbn [run_calls].
        rewrite Hcall1. cbn. rewrite Hcall2. reflexivity.
      * destruct (keep_min_static (keep_min s R dr m) L dl m) as (-> & _ & _).
        destruct (keep_min_static s R dr m) as (-> & _ & _). assumption.
      * destruct (keep_min_static (keep_min s R dr m) L dl m) as (_ & -> & _).
        destruct (keep_min_static s R dr m) as (_ & -> & _). assumption.
      * destruct (keep_min_static (keep_min s R dr m) L dl m) as (_ & _ & ->).
        destruct (keep_min_static s R dr m) as (_ & _ & ->). assumption.
      * apply strip_best_upto_keep; auto.
Qed.

(** The outer loop, run over the first [m] strips. *)
Lemma outer_loop_run strips0 :
  Forall fresh strips0 →
  scores_defined strips0 →
  ∀ m, (m ≤ length strips0)%nat →
    ∃ st, run_calls (flat_map (inner_calls (length strips0)) (seq 0 m)) strips0
          = Ok st ∧
          same_static st strips0 ∧
          (∀ i s, (i < m)%nat → st !! i = Some s →
                  strip_best_upto strips0 i (length strips0) s) ∧
          (∀ i, (m ≤ i)%nat → st !! i = strips0 !! i).
Proof.
  intros Hfresh Hscores. induction m as [|m IH]; intros Hm.
  - exists strips0. split_and!; auto using same_static_refl. intros; lia.
  - destruct (IH ltac:(lia)) as (st & Hrun & Hst & Hdone & Htodo).
    destruct (lookup_lt_is_Some_2 strips0 m) as [s0 Hs0]; [lia|].
    assert (Hsm : st !! m = Some s0) by (rewrite Htodo by lia; exact Hs0).
    assert (Hfirst : strip_best_upto st m 0 s0)
      by (apply fresh_best_upto; eapply Forall_lookup_1; eassumption).
    assert (Hdef : ∀ k edge, (k < length strips0)%nat → k ≠ m →
                     ∃ d, candidate_score st m k edge = Ok d).
    { intros k edge Hk Hne.
      rewrite (candidate_score_static _ _ _ _ _ Hst).
      apply Hscores; [lia | assumption | congruence]. }
    destruct (inner_calls_run st m s0 Hsm Hfirst (length strips0) Hdef)
      as (s & Hinner & Hpos & Himg & Hbor & Hbest).
    exists (<[m := s]> st).
    split_and!.
    + rewrite seq_S, flat_map_app, run_calls_app, (result_bind_Ok _ _ _ Hrun).
      simpl. rewrite app_nil_r. exact Hinner.
    + apply (same_static_insert _ _ _ _ s0); auto.
    + intros i s' Hi Hs'. destruct (decide (i = m)) as [->|Hne].
      * rewrite list_lookup_insert_eq in Hs'
          by (rewrite (Forall2_length _ _ _ Hst); lia).
        injection Hs' as <-. intros edge.
        apply (best_upto_static st); [exact Hst | apply Hbest].
      * rewrite list_lookup_insert_ne in Hs' by congruence.
        apply (Hdone i s'); [lia | exact Hs'].
    + intros i Hi. rewrite list_lookup_insert_ne by lia. apply Htodo. lia.
Qed.

(** [FindNeighbors] on fresh strips: it returns, touches the matching
    fields only, and leaves on every side of every strip the first minimum
    over all the other strips. *)
Lemma FindNeighbors_best strips0 :
  Forall fresh strips0 →
  scores_defined strips0 →
  ∃ st, FindNeighbors strips0 = Ok st ∧
        same_static st strips0 ∧
        ∀ i s, st !! i = Some s →
               strip_best_upto strips0 i (length strips0) s.
Proof.
  intros Hfresh Hscores.
  destruct (outer_loop_run strips0 Hfresh Hscores (length strips0))
    as (st & Hrun & Hst & Hdone & _); [lia|].
  exists st. split_and!; [exact Hrun | exact Hst |].
  intros i s Hs. apply Hdone; [|exact Hs].
  rewrite <- (Forall2_length _ _ _ Hst). eapply lookup_lt_Some, Hs.
Qed.

End Loops.

Section Invariants.

Implicit Types (strips : list Strip) (s : Strip) (edge : Border).

Lemma FindNeighbors_calls_distinct n :
  Forall distinct_call (FindNeighbors_calls n).
Proof.
  apply Forall_forall. intros c Hc. apply list_elem_of_In in Hc.
  unfold FindNeighbors_calls in Hc. apply in_flat_map in Hc as (i & _ & Hc).
  unfold inner_calls in Hc. apply in_flat_map in Hc as (j & _ & Hc).
  destruct (decide (i = j)) as [|Hne]; [destruct Hc|].
  destruct Hc as [<-|[<-|[]]]; exact Hne.
Qed.

Lemma fresh_no_self strips : Forall fresh strips → no_self_neighbor strips.
Proof.
  intros H i s edge Hs. destruct (Forall_lookup_1 _ _ _ _ H Hs) as [-> _].
  destruct edge; discriminate.
Qed.

Lemma fresh_refs_valid strips : Forall fresh strips → refs_valid strips.
Proof.
  intros H i s edge j Hs. destruct (Forall_lookup_1 _ _ _ _ H Hs) as [-> _].
  destruct edge; discriminate.
Qed.

Lemma NeighborDistance_no_self strips self neighbor edge ne strips' d :
  self ≠ neighbor →
  _NeighborDistance strips self neighbor edge ne = Ok (strips', d) →
  no_self_neighbor strips → no_self_neighbor strips'.
Proof.
  intros Hne Hcall Hinv.
  apply NeighborDistance_inv in Hcall as (s & nb & Hs & _ & _ & ->).
  intros i s' edge' Hs'.
  destruct (decide (self = i)) as [->|Hi].
  - rewrite list_lookup_insert_eq in Hs' by (eapply lookup_lt_Some, Hs).
    injection Hs' as <-. rewrite keep_min_neighbor.
    repeat case_match; try congruence; apply (Hinv i s); exact Hs.
  - rewrite list_lookup_insert_ne in Hs' by exact Hi. apply (Hinv i s'), Hs'.
Qed.

Lemma NeighborDistance_refs_valid strips self neighbor edge ne strips' d :
  _NeighborDistance strips self neighbor edge ne = Ok (strips', d) →
  refs_valid strips → refs_valid strips'.
Proof.
  intros Hcall Hinv.
  apply NeighborDistance_inv in Hcall as (s & nb & Hs & Hnb & _ & ->).
  intros i s' edge' j Hs'. rewrite length_insert.
  destruct (decide (self = i)) as [->|Hi].
  - rewrite list_lookup_insert_eq in Hs' by (eapply lookup_lt_Some, Hs).
    injection Hs' as <-. rewrite keep_min_neighbor.
    repeat case_match; intros Hj; try (apply (Hinv i s edge' j Hs Hj));
      injection Hj as <-; eapply lookup_lt_Some, Hnb.
  - rewrite list_lookup_insert_ne in Hs' by exact Hi. apply (Hinv i s'), Hs'.
Qed.

Lemma NeighborDistance_length strips self neighbor edge ne strips' d :
  _NeighborDistance strips self neighbor edge ne = Ok (strips', d) →
  length strips' = length strips.
Proof.
  intros Hcall.
  apply NeighborDistance_inv in Hcall as (s & nb & _ & _ & _ & ->).
  apply length_insert.
Qed.

Lemma run_calls_no_self calls : ∀ strips strips',
  Forall distinct_call calls →
  run_calls calls strips = Ok strips' →
  no_self_neighbor strips → no_self_neighbor strips'.
Proof.
  induction calls as [|[[[self nb] e] ne] calls IH]; intros strips strips' Hd.
  - intros [= <-]. auto.
  - cbn [run_calls]. intros Hrun Hinv.
    apply result_bind_inv in Hrun as ([st d] & Hcall & Hrun).
    inversion Hd as [|? ? Hc Hd']; subst.
    apply (IH st strips' Hd' Hrun).
    eapply NeighborDistance_no_self; [exact Hc | exact Hcall | exact Hinv].
Qed.

Lemma run_calls_refs_valid calls : ∀ strips strips',
  run_calls calls strips = Ok strips' →
  refs_valid strips → refs_valid strips'.
Proof.
  induction calls as [|[[[self nb] e] ne] calls IH]; intros strips strips'.
  - intros [= <-]. auto.
  - cbn [run_calls]. intros Hrun Hinv.
    apply result_bind_inv in Hrun as ([st d] & Hcall & Hrun).
    apply (IH st strips' Hrun).
    eapply NeighborDistance_refs_valid; [exact Hcall | exact Hinv].
Qed.

Lemma run_calls_length calls : ∀ strips strips',
  run_calls calls strips = Ok strips' → length strips' = length strips.
Proof.
  induction calls as [|[[[self nb] e] ne] calls IH]; intros strips strips'.
  - intros [= <-]. reflexivity.
  - cbn [run_calls]. intros Hrun.
    apply result_bind_inv in Hrun as ([st d] & Hcall & Hrun).
    rewrite (IH st strips' Hrun).
    eapply NeighborDistance_length, Hcall.
Qed.

End Invariants.

Section Scores.

Implicit Types (strips : list Strip) (s : Strip) (edge : Border).

Lemma first_channel_byte p : rgba_pixel p → 0 ≤ first_channel p ≤ 255.
Proof.
  intros [Hlen Hb]. destruct p as [|c p]; [discriminate|].
  inversion Hb; subst. assumption.
Qed.

Lemma first_channel_distance_bound pixels_a : ∀ pixels_b,
  Forall rgba_pixel pixels_a → Forall rgba_pixel pixels_b →
  0 ≤ first_channel_distance pixels_a pixels_b
    ≤ 255 * Z.of_nat (length pixels_a).
Proof.
  induction pixels_a as [|a rest IH]; intros [|b rest'] Ha Hb;
    cbn [first_channel_distance length]; try lia.
  inversion Ha as [|? ? Ha1 Ha2]; inversion Hb as [|? ? Hb1 Hb2]; subst.
  specialize (IH rest' Ha2 Hb2).
  pose proof (first_channel_byte a Ha1). pose proof (first_channel_byte b Hb1).
  lia.
Qed.

Lemma rgba_four pixels :
  Forall rgba_pixel pixels → Forall (fun p => length p = 4%nat) pixels.
Proof. intros H. eapply Forall_impl; [exact H|]. intros p [Hp _]. exact Hp. Qed.

(** On equal-length sequences of RGBA pixels the distance is defined and at
    most 255 per sample. *)
Lemma GetDistance_rgba pixels_a pixels_b :
  length pixels_a = length pixels_b →
  Forall rgba_pixel pixels_a → Forall rgba_pixel pixels_b →
  ∃ d, GetDistance pixels_a pixels_b = Ok d ∧
       0 ≤ d ≤ 255 * Z.of_nat (length pixels_a).
Proof.
  intros Hlen Ha Hb. exists (first_channel_distance pixels_a pixels_b).
  split; [|apply first_channel_distance_bound; assumption].
  rewrite GetDistance_leading_channels.
  - f_equal. apply four_channels_distance; apply rgba_four; assumption.
  - apply Forall2_by_length; [exact Hlen|]. intros x y Hx Hy.
    apply rgba_four in Ha, Hb. rewrite Forall_forall in Ha, Hb.
    unfold channels_available. rewrite (Ha x Hx), (Hb y Hy). lia.
Qed.

Lemma candidate_score_rgba n strips i j edge :
  rgba_borders n strips →
  (i < length strips)%nat → (j < length strips)%nat →
  ∃ d, candidate_score strips i j edge = Ok d ∧ 0 ≤ d ≤ 255 * Z.of_nat n.
Proof.
  intros Hb Hi Hj. unfold candidate_score.
  destruct (lookup_lt_is_Some_2 strips i Hi) as [s Hs].
  destruct (lookup_lt_is_Some_2 strips j Hj) as [nb Hnb].
  rewrite Hs, Hnb.
  destruct (Hb s edge) as [Hls Hps]; [eapply list_elem_of_lookup_2, Hs|].
  destruct (Hb nb (opposite edge)) as [Hln Hpn];
    [eapply list_elem_of_lookup_2, Hnb|].
  destruct (GetDistance_rgba (GetBorderPixels nb (opposite edge))
                             (GetBorderPixels s edge))
    as (d & Hd & Hbound); [congruence | assumption | assumption |].
  exists d. split; [exact Hd|]. rewrite Hln in Hbound. exact Hbound.
Qed.

(** When every score stays below the sentinel and there is at least one
    candidate, a neighbour is installed. *)
Lemma best_upto_assigned strips i edge best d k dk :
  best_upto strips i edge (length strips) best d →
  (k < length strips)%nat → k ≠ i →
  candidate_score strips i k edge = Ok dk → dk < MAX →
  ∃ j, best = Some j ∧ j ≠ i ∧ (j < length strips)%nat ∧
       candidate_score strips i j edge = Ok d.
Proof.
  intros Hbest Hk Hne Hdk Hlt. destruct best as [j|]; simpl in Hbest.
  - destruct Hbest as (? & ? & ? & ? & _). eauto.
  - destruct Hbest as (_ & Hall). specialize (Hall k dk Hk Hne Hdk). lia.
Qed.

Lemma other_candidate strips i :
  (2 ≤ length strips)%nat → ∃ k, (k < length strips)%nat ∧ k ≠ i.
Proof.
  intros H. destruct (decide (i = 0%nat)) as [->|];
    [exists 1%nat | exists 0%nat]; lia.
Qed.

Lemma FindNeighbors_assigns n strips :
  (2 ≤ length strips)%nat →
  Forall fresh strips →
  rgba_borders n strips →
  255 * Z.of_nat n < MAX →
  ∃ strips', FindNeighbors strips = Ok strips' ∧
             length strips' = length strips ∧
             refs_valid strips' ∧ matched strips'.
Proof.
  intros Hlen Hfresh Hb Hn.
  assert (Hdef : scores_defined strips).
  { intros i j edge Hi Hj _.
    destruct (candidate_score_rgba n strips i j edge Hb Hi Hj) as (d & ? & _).
    eauto. }
  destruct (FindNeighbors_best strips Hfresh Hdef) as (st & Hrun & Hst & Hbest).
  exists st. split_and!; [exact Hrun | apply (Forall2_length _ _ _ Hst) | |].
  - eapply run_calls_refs_valid; [exact Hrun | apply fresh_refs_valid, Hfresh].
  - intros i s edge Hs.
    destruct (other_candidate strips i Hlen) as (k & Hk & Hne).
    destruct (candidate_score_rgba n strips i k edge Hb) as (dk & Hdk & ?);
      [rewrite <- (Forall2_length _ _ _ Hst); eapply lookup_lt_Some, Hs
      | exact Hk |].
    destruct (best_upto_assigned _ _ _ _ _ k dk (Hbest i s Hs edge))
      as (j & -> & _); auto; lia.
Qed.

End Scores.

Section Edge.

Implicit Types (strips : list Strip) (s : Strip) (edge : Border).

(** In a matched store with valid references both neighbours of a strip can
    be dereferenced. *)
Lemma matched_deref strips i s edge :
  matched strips → refs_valid strips → strips !! i = Some s →
  ∃ j nb, get (_neighbors s) edge = Some j ∧ strips !! j = Some nb.
Proof.
  intros Hm Hv Hs. destruct (Hm i s edge Hs) as [j Hj].
  destruct (lookup_lt_is_Some_2 strips j) as [nb Hnb];
    [apply (Hv i s edge j Hs Hj) | eauto].
Qed.

Lemma deref_Some strips i s :
  strips !! i = Some s → deref strips (Some i) = Ok s.
Proof. intros H. unfold deref. rewrite H. reflexivity. Qed.

(** One round of the loop of [DetectLeftEdge]. *)
Lemma DetectLeftEdge_loop_step strips i rest :
  matched strips → refs_valid strips → (i < length strips)%nat →
  (broken_reciprocity strips i ∧
   DetectLeftEdge_loop (i :: rest) strips = Ok (Some i)) ∨
  (¬ broken_reciprocity strips i ∧
   DetectLeftEdge_loop (i :: rest) strips = DetectLeftEdge_loop rest strips).
Proof.
  intros Hm Hv Hi.
  destruct (lookup_lt_is_Some_2 strips i Hi) as [s Hs].
  destruct (matched_deref strips i s R Hm Hv Hs) as (jr & nr & Hjr & Hnr).
  destruct (matched_deref strips i s L Hm Hv Hs) as (jl & nl & Hjl & Hnl).
  fold (GetRightNeighbor s) in Hjr. fold (GetLeftNeighbor s) in Hjl.
  cbn [DetectLeftEdge_loop].
  rewrite (result_bind_Ok _ _ _ (deref_Some strips i s Hs)), Hjr, Hjl.
  rewrite (result_bind_Ok _ _ _ (deref_Some strips jr nr Hnr)).
  rewrite (result_bind_Ok _ _ _ (deref_Some strips jl nl Hnl)).
  destruct (decide (GetRightNeighbor nl = Some i)) as [Heq|Hne].
  - right. split; [|reflexivity].
    intros (s' & ln & left & Hs' & Hln & Hleft & Hbroken). congruence.
  - left. split; [|reflexivity]. exists s, jl, nl. auto.
Qed.

Lemma DetectLeftEdge_loop_seq strips :
  matched strips → refs_valid strips →
  ∀ m a, (a + m ≤ length strips)%nat →
    match DetectLeftEdge_loop (seq a m) strips with
    | Ok (Some i) =>
        (a ≤ i < a + m)%nat ∧ broken_reciprocity strips i ∧
        ∀ k, (a ≤ k < i)%nat → ¬ broken_reciprocity strips k
    | Ok None => ∀ k, (a ≤ k < a + m)%nat → ¬ broken_reciprocity strips k
    | Raise _ => False
    end.
Proof.
  intros Hm Hv. induction m as [|m IH]; intros a Ha; cbn [seq].
  - cbn. intros k ?. lia.
  - destruct (DetectLeftEdge_loop_step strips a (seq (S a) m) Hm Hv)
      as [[Hb ->]|[Hnb ->]]; [lia | |].
    + split; [lia|]. split; [exact Hb | intros k ?; lia].
    + specialize (IH (S a) ltac:(lia)).
      destruct (DetectLeftEdge_loop (seq (S a) m) strips) as [[i|]|];
        [| |exact IH].
      * destruct IH as (? & ? & Hall). split; [lia|]. split; [assumption|].
        intros k Hk. destruct (decide (k = a)) as [->|]; [exact Hnb|].
        apply Hall. lia.
      * intros k Hk. destruct (decide (k = a)) as [->|]; [exact Hnb|].
        apply IH. lia.
Qed.

Lemma broken_reciprocity_lt strips i :
  broken_reciprocity strips i → (i < length strips)%nat.
Proof. intros (s & _ & _ & Hs & _). eapply lookup_lt_Some, Hs. Qed.

(** C3, as amended.  On a matched store (every strip has both neighbours,
    all in the store) [DetectLeftEdge] does not raise.  When at least one
    strip has a left neighbour whose right neighbour is not that strip, it
    returns the first such strip in extraction order: every strip before it
    is reciprocated.  When no strip is so, it returns no strip at all
    ([None]). *)
Theorem DetectLeftEdge_returns_first_offender strips :
  matched strips → refs_valid strips →
  match DetectLeftEdge strips with
  | Ok (Some i) =>
      broken_reciprocity strips i ∧
      ∀ k, (k < i)%nat → ¬ broken_reciprocity strips k
  | Ok None => ∀ k, ¬ broken_reciprocity strips k
  | Raise _ => False
  end.
Proof.
  intros Hm Hv. unfold DetectLeftEdge.
  pose proof (DetectLeftEdge_loop_seq strips Hm Hv (length strips) 0
                ltac:(lia)) as H.
  destruct (DetectLeftEdge_loop (seq 0 (length strips)) strips) as [[i|]|];
    [| |exact H].
  - destruct H as (_ & Hb & Hall). split; [exact Hb|].
    intros k Hk. apply Hall. lia.
  - intros k Hk. apply (H k); [|exact Hk].
    apply broken_reciprocity_lt in Hk. lia.
Qed.

End Edge.

Section Chain.

Variable cfg : Config.
Implicit Types (strips : list Strip) (s : Strip) (image : Canvas).

(** At or beyond the width bound [OrderStrips] returns the raster as it
    is. *)
Lemma OrderStrips_rec_stop fuel strips image strip count :
  IMAGE_WIDTH cfg ≤ count * STRIP_WIDTH cfg →
  OrderStrips_rec cfg fuel strips image strip count = Ok image.
Proof.
  intros H. destruct fuel; cbn [OrderStrips_rec];
    (destruct (Z.leb_spec (IMAGE_WIDTH cfg) (count * STRIP_WIDTH cfg));
     [reflexivity | lia]).
Qed.

(** The recursion of [OrderStrips] from slot [c] on, when [d] slots are
    left before the width bound. *)
Lemma OrderStrips_rec_slots strips (n : nat) :
  0 < STRIP_WIDTH cfg →
  IMAGE_WIDTH cfg = Z.of_nat n * STRIP_WIDTH cfg →
  matched strips → refs_valid strips →
  ∀ d c fuel image e,
    (c + d = n)%nat → (d ≤ fuel)%nat → (e < length strips)%nat →
    ∃ tail,
      OrderStrips_rec cfg fuel strips image (Some e) (Z.of_nat c)
      = Ok (mkCanvas (canvas_size image) (pastes image ++ tail)) ∧
      length tail = d ∧
      ∀ k, (k < d)%nat →
        ∃ i s, nth_right strips (Some e) k = Some i ∧
               strips !! i = Some s ∧
               tail !! k
               = Some (GetImage s, (Z.of_nat (c + k) * STRIP_WIDTH cfg, 0)).
Proof.
  intros Hsw Hiw Hm Hv.
  induction d as [|d IH]; intros c fuel image e Hc Hfuel He.
  - exists []. split_and!; [|reflexivity|intros; lia].
    rewrite OrderStrips_rec_stop by nia.
    rewrite app_nil_r. destruct image; reflexivity.
  - destruct fuel as [|fuel]; [lia|].
    destruct (lookup_lt_is_Some_2 strips e He) as [s Hs].
    destruct (matched_deref strips e s R Hm Hv Hs) as (j & nb & Hj & Hnb).
    fold (GetRightNeighbor s) in Hj.
    destruct (IH (S c) fuel
                 (paste image (GetImage s)
                        (Z.of_nat c * STRIP_WIDTH cfg, 0)) j)
      as (tail & Hrun & Hlen & Htail);
      [lia | lia | eapply lookup_lt_Some, Hnb |].
    exists ((GetImage s, (Z.of_nat c * STRIP_WIDTH cfg, 0)) :: tail).
    split_and!.
    + cbn [OrderStrips_rec].
      destruct (Z.leb_spec (IMAGE_WIDTH cfg) (Z.of_nat c * STRIP_WIDTH cfg));
        [nia|].
      rewrite (result_bind_Ok _ _ _ (deref_Some strips e s Hs)), Hj.
      replace (Z.of_nat c + 1) with (Z.of_nat (S c)) by lia.
      rewrite Hrun. cbn [paste canvas_size pastes].
      rewrite <- (assoc_L (++)). reflexivity.
    + cbn [length]. lia.
    + intros [|k] Hk.
      * exists e, s. split_and!; [reflexivity | exact Hs |].
        cbn. do 3 f_equal. lia.
      * destruct (Htail k ltac:(lia)) as (i & s' & Hi & Hs' & Hk').
        exists i, s'. split_and!; [|exact Hs'|].
        -- cbn [nth_right]. rewrite Hs, Hj. exact Hi.
        -- change (tail !! k
                   = Some (GetImage s',
                           (Z.of_nat (c + S k) * STRIP_WIDTH cfg, 0))).
           rewrite Hk'. do 3 f_equal. lia.
Qed.

Lemma side_by_side_prefix ps p :
  side_by_side cfg (ps ++ [p]) → side_by_side cfg ps.
Proof.
  intros H k q Hq. apply (H k q). rewrite lookup_app_l; [exact Hq|].
  eapply lookup_lt_Some, Hq.
Qed.

Lemma last_cover_side_by_side c :
  0 < STRIP_WIDTH cfg →
  ∀ ps, side_by_side cfg ps →
    ∀ k p, ps !! k = Some p → covers p c = true →
           fold_left (fun acc q =>
                        if covers q c then Some (fst q, c - fst (snd q))
                        else acc) ps None
           = Some (fst p, c - fst (snd p)).
Proof.
  intros Hsw.
  induction ps as [|q ps IH] using rev_ind; intros Hside k p Hp Hc;
    [discriminate|].
  rewrite fold_left_app. cbn [fold_left].
  destruct (covers q c) eqn:Hq.
  - assert (Hqk : (ps ++ [q]) !! length ps = Some q)
      by (apply list_lookup_middle; reflexivity).
    destruct (Hside _ _ Hqk) as [Hqx Hqw].
    destruct (Hside _ _ Hp) as [Hpx Hpw].
    unfold covers in Hq, Hc. rewrite Hqx, Hqw in Hq. rewrite Hpx, Hpw in Hc.
    assert (k = length ps) as -> by (apply Nat2Z.inj; nia).
    congruence.
  - destruct (decide (k = length ps)) as [->|Hne].
    + rewrite list_lookup_middle in Hp by reflexivity. congruence.
    + apply (IH (side_by_side_prefix _ _ Hside) k p); [|exact Hc].
      rewrite lookup_app_l in Hp; [exact Hp|].
      apply lookup_lt_Some in Hp. rewrite length_app in Hp. simpl in Hp. lia.
Qed.

Lemma column_source_side_by_side sz c :
  0 < STRIP_WIDTH cfg →
  0 ≤ c < fst sz →
  ∀ ps, side_by_side cfg ps →
    ∀ k p, ps !! k = Some p → covers p c = true →
           column_source (mkCanvas sz ps) c = Some (fst p, c - fst (snd p)).
Proof.
  intros Hsw Hin ps Hside k p Hp Hc.
  unfold column_source. cbn [pastes canvas_size].
  destruct (Z.leb_spec 0 c); [|lia].
  destruct (Z.ltb_spec c (fst sz)); [|lia].
  cbn [andb]. eapply last_cover_side_by_side; eassumption.
Qed.

End Chain.

Section Sampling.

Variable cfg : Config.
Implicit Types (self : Strip) (border : Border).

Lemma set_get {A} (d : Dict A) b : set d b (get d b) = d.
Proof. destruct d, b; reflexivity. Qed.

Lemma set_set {A} (d : Dict A) b v w : set (set d b v) b w = set d b w.
Proof. destruct b; reflexivity. Qed.

Lemma extend_border_nil self border : extend_border self border [] = self.
Proof.
  unfold extend_border. rewrite app_nil_r, set_get. destruct self; reflexivity.
Qed.

Lemma extend_border_cons self border p samples :
  extend_border (append_border self border p) border samples
  = extend_border self border (p :: samples).
Proof.
  unfold extend_border, append_border. cbn.
  rewrite get_set_eq, set_set, <- (assoc_L (++)). reflexivity.
Qed.

(** The samples are as many as there are multiples of the stride below the
    image height. *)
Lemma sample_count_spec (k : nat) :
  0 < SAMPLING_DISTANCE cfg →
  (k < sample_count cfg)%nat
  ↔ Z.of_nat k * SAMPLING_DISTANCE cfg < IMAGE_HEIGHT cfg.
Proof.
  intros Hsd. unfold sample_count.
  pose proof (Z.div_mod (IMAGE_HEIGHT cfg + SAMPLING_DISTANCE cfg - 1)
                (SAMPLING_DISTANCE cfg) ltac:(lia)) as Hdm.
  pose proof (Z.mod_pos_bound (IMAGE_HEIGHT cfg + SAMPLING_DISTANCE cfg - 1)
                (SAMPLING_DISTANCE cfg) Hsd) as Hmod.
  set (q := (IMAGE_HEIGHT cfg + SAMPLING_DISTANCE cfg - 1)
            / SAMPLING_DISTANCE cfg) in *.
  split; intros H.
  - assert (Z.of_nat k < q) by lia. nia.
  - assert (Z.of_nat k < q) by nia. lia.
Qed.

Lemma sample_count_le_height :
  0 < SAMPLING_DISTANCE cfg →
  (sample_count cfg ≤ Z.to_nat (IMAGE_HEIGHT cfg))%nat.
Proof.
  intros Hsd. destruct (sample_count cfg) as [|n] eqn:Hn; [lia|].
  assert (Hlt : (n < sample_count cfg)%nat) by lia.
  apply sample_count_spec in Hlt; [|exact Hsd]. nia.
Qed.

(** At an index that is not negative [data[i]] is the plain lookup. *)
Lemma index_data_nonneg (data : list Pixel) (i : Z) :
  0 ≤ i →
  index_data data i
  = match data !! Z.to_nat i with
    | Some p => Ok p
    | None => Raise IndexError
    end.
Proof.
  intros Hi. unfold index_data.
  destruct (Z.ltb_spec i (- Z.of_nat (length data))); [lia|].
  destruct (Z.ltb_spec i 0); [lia|]. reflexivity.
Qed.

(** A read inside the strip succeeds and returns the pixel at that column
    and row. *)
Lemma GetPixelValue_inside self x y :
  strip_shaped cfg (_image self) →
  0 ≤ x < STRIP_WIDTH cfg → 0 ≤ y < IMAGE_HEIGHT cfg →
  ∃ p, _GetPixelValue cfg self x y = Ok p ∧
       pixel_at (_image self) x y = Some p.
Proof.
  intros [Hsize Hlen] Hx Hy.
  assert (Hidx : 0 ≤ y * STRIP_WIDTH cfg + x
                 < STRIP_WIDTH cfg * IMAGE_HEIGHT cfg) by nia.
  destruct (lookup_lt_is_Some_2 (getdata (_image self))
              (Z.to_nat (y * STRIP_WIDTH cfg + x))) as [p Hp]; [lia|].
  exists p. split.
  - unfold _GetPixelValue, _image_data.
    rewrite index_data_nonneg by lia. rewrite Hp. reflexivity.
  - unfold pixel_at. rewrite Hsize.
    destruct (Z.leb_spec 0 x); [|lia].
    destruct (Z.ltb_spec x (STRIP_WIDTH cfg)); [|lia].
    destruct (Z.leb_spec 0 y); [|lia].
    destruct (Z.ltb_spec y (IMAGE_HEIGHT cfg)); [|lia].
    exact Hp.
Qed.

(** The loop of [_LoadBorder] from sample [k] on, when [d] samples are
    left. *)
Lemma LoadBorder_loop_samples border x :
  0 < SAMPLING_DISTANCE cfg → 0 ≤ x < STRIP_WIDTH cfg →
  ∀ d k fuel self reads,
    (k + d = sample_count cfg)%nat → (d ≤ fuel)%nat →
    strip_shaped cfg (_image self) →
    ∃ samples,
      LoadBorder_loop cfg fuel border x
                      (Z.of_nat k * SAMPLING_DISTANCE cfg) (Z.of_nat k)
                      self reads
      = Ok (extend_border self border samples,
            reads ++ map (fun y => (x, y)) (rows_from cfg k d)) ∧
      Forall2 (fun y p => pixel_at (_image self) x y = Some p)
              (rows_from cfg k d) samples.
Proof.
  intros Hsd Hx. induction d as [|d IH]; intros k fuel self reads Hk Hfuel Hsh.
  - exists []. split; [|constructor].
    assert (Hstop : ¬ Z.of_nat k * SAMPLING_DISTANCE cfg < IMAGE_HEIGHT cfg)
      by (rewrite <- sample_count_spec by exact Hsd; lia).
    rewrite extend_border_nil, app_nil_r.
    destruct fuel; cbn [LoadBorder_loop];
      (destruct (Z.ltb_spec (Z.of_nat k * SAMPLING_DISTANCE cfg)
                            (IMAGE_HEIGHT cfg)); [lia | reflexivity]).
  - destruct fuel as [|fuel]; [lia|].
    assert (Hgo : Z.of_nat k * SAMPLING_DISTANCE cfg < IMAGE_HEIGHT cfg)
      by (rewrite <- sample_count_spec by exact Hsd; lia).
    destruct (GetPixelValue_inside self x
                (Z.of_nat k * SAMPLING_DISTANCE cfg) Hsh Hx ltac:(lia))
      as (p & Hread & Hp).
    destruct (IH (S k) fuel (append_border self border p)
                 (reads ++ [(x, Z.of_nat k * SAMPLING_DISTANCE cfg)]))
      as (samples & Hrun & Hrows); [lia | lia | exact Hsh |].
    exists (p :: samples). split.
    + cbn [LoadBorder_loop].
      destruct (Z.ltb_spec (Z.of_nat k * SAMPLING_DISTANCE cfg)
                           (IMAGE_HEIGHT cfg)); [|lia].
      rewrite (result_bind_Ok _ _ _ Hread).
      replace (Z.of_nat k + 1) with (Z.of_nat (S k)) by lia.
      rewrite Hrun, extend_border_cons, <- (assoc_L (++)). reflexivity.
    + constructor; [exact Hp | exact Hrows].
Qed.

Lemma BORDERS_inside border :
  0 < STRIP_WIDTH cfg → 0 ≤ BORDERS cfg border < STRIP_WIDTH cfg.
Proof. destruct border; simpl; lia. Qed.

(** [_LoadBorder] on a strip-shaped image. *)
Lemma LoadBorder_samples self border :
  0 < SAMPLING_DISTANCE cfg → 0 < STRIP_WIDTH cfg →
  strip_shaped cfg (_image self) →
  ∃ samples,
    _LoadBorder cfg self border
    = Ok (extend_border self border samples,
          map (fun y => (BORDERS cfg border, y))
              (sample_rows cfg (sample_count cfg))) ∧
    Forall2 (fun y p => pixel_at (_image self) (BORDERS cfg border) y = Some p)
            (sample_rows cfg (sample_count cfg)) samples.
Proof.
  intros Hsd Hsw Hsh.
  destruct (LoadBorder_loop_samples border (BORDERS cfg border) Hsd
              (BORDERS_inside border Hsw) (sample_count cfg) 0
              (Z.to_nat (IMAGE_HEIGHT cfg)) self [])
    as (samples & Hrun & Hrows);
    [lia | apply sample_count_le_height, Hsd | exact Hsh |].
  exists samples. split; [exact Hrun | exact Hrows].
Qed.

Lemma sample_rows_inside y :
  0 < SAMPLING_DISTANCE cfg →
  y ∈ sample_rows cfg (sample_count cfg) → 0 ≤ y < IMAGE_HEIGHT cfg.
Proof.
  intros Hsd Hy. unfold sample_rows in Hy.
  apply list_elem_of_In, in_map_iff in Hy as (k & <- & Hk).
  apply in_seq in Hk. split; [nia|].
  apply sample_count_spec; [exact Hsd | lia].
Qed.

End Sampling.

Section Extraction.

Variable cfg : Config.

Lemma length_flat_map_const {A B} (f : A → list B) (n : nat) (xs : list A) :
  (∀ x, length (f x) = n) → length (flat_map f xs) = (length xs * n)%nat.
Proof.
  intros Hf. induction xs as [|x xs IH]; [reflexivity|].
  cbn [flat_map]. rewrite length_app, Hf, IH. reflexivity.
Qed.

(** The crop [_GetStrip] takes has the shape of a strip, wherever the box
    lies. *)
Lemma crop_strip_shaped im x1 :
  0 < STRIP_WIDTH cfg →
  strip_shaped cfg
    (crop im (x1, 0, x1 + STRIP_WIDTH cfg, IMAGE_HEIGHT cfg)).
Proof.
  intros Hsw. unfold strip_shaped, crop. cbn [size getdata]. split.
  - f_equal; lia.
  - rewrite (length_flat_map_const _ (Z.to_nat (x1 + STRIP_WIDTH cfg - x1)))
      by (intros; rewrite length_map, length_seq; reflexivity).
    rewrite length_seq.
    replace (x1 + STRIP_WIDTH cfg - x1) with (STRIP_WIDTH cfg) by lia.
    replace (IMAGE_HEIGHT cfg - 0) with (IMAGE_HEIGHT cfg) by lia.
    destruct (Z.le_gt_cases 0 (IMAGE_HEIGHT cfg)).
    + rewrite Z2Nat.inj_mul by lia. lia.
    + rewrite (Z2Nat.nonpos (IMAGE_HEIGHT cfg)) by lia.
      rewrite (Z2Nat.nonpos (STRIP_WIDTH cfg * IMAGE_HEIGHT cfg)) by nia.
      reflexivity.
Qed.

(** [Strip.__init__] on a strip-shaped image returns a fresh strip holding
    the two sampled borders. *)
Lemma Strip_init_fresh image position :
  0 < SAMPLING_DISTANCE cfg → 0 < STRIP_WIDTH cfg →
  strip_shaped cfg image →
  ∃ left right,
    Strip_init cfg image position
    = Ok (mkStrip position image (mkDict None None) (mkDict MAX MAX)
                  (mkDict left right)) ∧
    Forall2 (fun y p => pixel_at image (BORDERS cfg L) y = Some p)
            (sample_rows cfg (sample_count cfg)) left ∧
    Forall2 (fun y p => pixel_at image (BORDERS cfg R) y = Some p)
            (sample_rows cfg (sample_count cfg)) right.
Proof.
  intros Hsd Hsw Hsh. unfold Strip_init, _LoadBorderPixels.
  set (self0 := mkStrip position image (mkDict None None) (mkDict MAX MAX)
                        (mkDict [] [])).
  destruct (LoadBorder_samples cfg self0 L Hsd Hsw Hsh)
    as (left & Hl & Hleft).
  destruct (LoadBorder_samples cfg (extend_border self0 L left) R Hsd Hsw Hsh)
    as (right & Hr & Hright).
  exists left, right. split_and!; [|exact Hleft|exact Hright].
  rewrite (result_bind_Ok _ _ _ Hl). cbn beta iota.
  rewrite (result_bind_Ok _ _ _ Hr). reflexivity.
Qed.

(** The strips are as many as there are multiples of the strip width below
    the image width. *)
Lemma strip_slots_spec (k : nat) :
  0 < STRIP_WIDTH cfg →
  (k < strip_slots cfg)%nat
  ↔ Z.of_nat k * STRIP_WIDTH cfg < IMAGE_WIDTH cfg.
Proof.
  intros Hsw. unfold strip_slots.
  pose proof (Z.div_mod (IMAGE_WIDTH cfg + STRIP_WIDTH cfg - 1)
                (STRIP_WIDTH cfg) ltac:(lia)) as Hdm.
  pose proof (Z.mod_pos_bound (IMAGE_WIDTH cfg + STRIP_WIDTH cfg - 1)
                (STRIP_WIDTH cfg) Hsw) as Hmod.
  set (q := (IMAGE_WIDTH cfg + STRIP_WIDTH cfg - 1) / STRIP_WIDTH cfg) in *.
  split; intros H.
  - assert (Z.of_nat k < q) by lia. nia.
  - assert (Z.of_nat k < q) by nia. lia.
Qed.

Lemma strip_slots_le_width :
  0 < STRIP_WIDTH cfg →
  (strip_slots cfg ≤ Z.to_nat (IMAGE_WIDTH cfg))%nat.
Proof.
  intros Hsw. destruct (strip_slots cfg) as [|n] eqn:Hn; [lia|].
  assert (Hlt : (n < strip_slots cfg)%nat) by lia.
  apply strip_slots_spec in Hlt; [|exact Hsw]. nia.
Qed.


Lemma below_quotient_slots (c : nat) :
  0 < STRIP_WIDTH cfg →
  below_quotient cfg (Z.of_nat c) = bool_decide (c < strip_slots cfg)%nat.
Proof.
  intros Hsw. unfold below_quotient.
  pose proof (strip_slots_spec c Hsw) as Hspec.
  destruct (Z.ltb_spec (Z.of_nat c * STRIP_WIDTH cfg) (IMAGE_WIDTH cfg));
    symmetry; [apply bool_decide_eq_true | apply bool_decide_eq_false]; lia.
Qed.

(** [_GetStrip] on any image and strip number. *)
Lemma GetStrip_extracted im (k : nat) :
  0 < SAMPLING_DISTANCE cfg → 0 < STRIP_WIDTH cfg →
  ∃ s, _GetStrip cfg im (Z.of_nat k) = Ok s ∧ extracted_strip cfg im k s.
Proof.
  intros Hsd Hsw. unfold _GetStrip.
  destruct (Strip_init_fresh
              (crop im (Z.of_nat k * STRIP_WIDTH cfg, 0,
                        Z.of_nat k * STRIP_WIDTH cfg + STRIP_WIDTH cfg,
                        IMAGE_HEIGHT cfg)) (Z.of_nat k) Hsd Hsw
              (crop_strip_shaped im _ Hsw))
    as (left & right & Hinit & Hleft & Hright).
  eexists. split; [exact Hinit|].
  split_and!; [split; reflexivity | reflexivity | reflexivity |].
  intros border.
  assert (Hl : length left = sample_count cfg).
  { apply Forall2_length in Hleft. unfold sample_rows in Hleft.
    rewrite length_map, length_seq in Hleft. congruence. }
  assert (Hr : length right = sample_count cfg).
  { apply Forall2_length in Hright. unfold sample_rows in Hright.
    rewrite length_map, length_seq in Hright. congruence. }
  destruct border; cbn; split; assumption.
Qed.

(** The loop of [GetStrips] from strip [c] on, when [d] strips are left. *)
Lemma GetStrips_loop_rounds im :
  0 < SAMPLING_DISTANCE cfg → 0 < STRIP_WIDTH cfg →
  ∀ d c fuel strips,
    (c + d = strip_slots cfg)%nat → (d ≤ fuel)%nat →
    ∃ new, GetStrips_loop cfg im fuel (Z.of_nat c) strips
           = Ok (strips ++ new) ∧
           Forall2 (extracted_strip cfg im) (seq c d) new.
Proof.
  intros Hsd Hsw. induction d as [|d IH]; intros c fuel strips Hc Hfuel.
  - exists []. rewrite app_nil_r. split; [|constructor].
    destruct fuel; cbn [GetStrips_loop];
      rewrite below_quotient_slots by exact Hsw;
      rewrite bool_decide_eq_false_2 by lia; reflexivity.
  - destruct fuel as [|fuel]; [lia|].
    destruct (GetStrip_extracted im c Hsd Hsw) as (s & Hs & Hext).
    destruct (IH (S c) fuel (strips ++ [s])) as (new & Hrun & Hnew);
      [lia | lia |].
    exists (s :: new). split; [|constructor; assumption].
    cbn [GetStrips_loop]. rewrite below_quotient_slots by exact Hsw.
    rewrite bool_decide_eq_true_2 by lia.
    rewrite (result_bind_Ok _ _ _ Hs).
    replace (Z.of_nat c + 1) with (Z.of_nat (S c)) by lia.
    rewrite Hrun, <- (assoc_L (++)). reflexivity.
Qed.

(** [GetStrips] with a positive stride and strip width: it returns, one
    strip per multiple of the strip width below the image width. *)
Lemma GetStrips_extracted im :
  0 < SAMPLING_DISTANCE cfg → 0 < STRIP_WIDTH cfg →
  ∃ strips, GetStrips cfg im = Ok strips ∧
            Forall2 (extracted_strip cfg im) (seq 0 (strip_slots cfg)) strips.
Proof.
  intros Hsd Hsw. unfold GetStrips.
  destruct (decide (STRIP_WIDTH cfg = 0)) as [|_]; [lia|].
  destruct (decide (STRIP_WIDTH cfg < 0)) as [|_]; [lia|].
  destruct (GetStrips_loop_rounds im Hsd Hsw (strip_slots cfg) 0
              (Z.to_nat (IMAGE_WIDTH cfg)) [])
    as (new & Hrun & Hnew);
    [lia | apply strip_slots_le_width, Hsw |].
  exists new. split; [exact Hrun | exact Hnew].
Qed.

(** An image width of at most one strip gives exactly one strip. *)
Lemma GetStrips_single im :
  0 < SAMPLING_DISTANCE cfg → 0 < STRIP_WIDTH cfg →
  0 < IMAGE_WIDTH cfg ≤ STRIP_WIDTH cfg →
  ∃ s, GetStrips cfg im = Ok [s] ∧ extracted_strip cfg im 0 s.
Proof.
  intros Hsd Hsw Hone.
  destruct (GetStrips_extracted im Hsd Hsw) as (strips & Hrun & Hext).
  assert (Hslots : strip_slots cfg = 1%nat).
  { pose proof (strip_slots_spec 0 Hsw). pose proof (strip_slots_spec 1 Hsw).
    lia. }
  rewrite Hslots in Hext. cbn [seq] in Hext.
  inversion Hext as [|? s ? rest Hs Hrest]; subst.
  inversion Hrest; subst. exists s. split; [exact Hrun | exact Hs].
Qed.

(** Matching a single strip compares nothing. *)
Lemma FindNeighbors_single (s : Strip) : FindNeighbors [s] = Ok [s].
Proof. reflexivity. Qed.

(** Edge detection on a single strip that has no right neighbour. *)
Lemma DetectLeftEdge_single_unmatched (s : Strip) :
  GetRightNeighbor s = None →
  DetectLeftEdge [s] = Raise AttributeError.
Proof.
  intros Hr. unfold DetectLeftEdge. cbn [length seq DetectLeftEdge_loop].
  rewrite (result_bind_Ok _ _ _ (deref_Some [s] 0 s eq_refl)), Hr.
  reflexivity.
Qed.

(** C7, as amended.  When the program is set up for an image exactly one
    strip wide ([IMAGE_WIDTH] equals [STRIP_WIDTH]) the pipeline produces no
    raster, whatever the image: [GetStrips] returns one strip, the crop of
    the first [STRIP_WIDTH] columns; [FindNeighbors] has no pair to compare,
    makes no call and leaves both neighbours of the strip absent;
    [DetectLeftEdge] raises [AttributeError] on the absent neighbour instead
    of selecting the only strip; and so [main] raises [AttributeError]. *)
Theorem one_strip_pipeline_raises (room : nat) img :
  0 < SAMPLING_DISTANCE cfg → 0 < STRIP_WIDTH cfg →
  IMAGE_WIDTH cfg = STRIP_WIDTH cfg →
  ∃ s,
    GetStrips cfg img = Ok [s] ∧
    _position s = 0 ∧
    _image s = crop img (0, 0, STRIP_WIDTH cfg, IMAGE_HEIGHT cfg) ∧
    FindNeighbors_calls (length [s]) = [] ∧
    FindNeighbors [s] = Ok [s] ∧
    GetLeftNeighbor s = None ∧ GetRightNeighbor s = None ∧
    DetectLeftEdge [s] = Raise AttributeError ∧
    main cfg room img = Raise AttributeError.
Proof.
  intros Hsd Hsw Hone.
  destruct (GetStrips_single img Hsd Hsw ltac:(lia))
    as (s & Hs & [Hn Hd] & Hpos & Himg & _).
  assert (Hl : GetLeftNeighbor s = None)
    by (unfold GetLeftNeighbor; rewrite Hn; reflexivity).
  assert (Hr : GetRightNeighbor s = None)
    by (unfold GetRightNeighbor; rewrite Hn; reflexivity).
  exists s.
  split_and!; try assumption; try reflexivity.
  - apply DetectLeftEdge_single_unmatched, Hr.
  - unfold main. rewrite (result_bind_Ok _ _ _ Hs).
    rewrite (result_bind_Ok _ _ _ (FindNeighbors_single s)).
    rewrite (DetectLeftEdge_single_unmatched s Hr). reflexivity.
Qed.

End Extraction.

(** ** The distance *)

(** C1, as amended.  On two equal-length sequences of pixels with exactly
    four channels, [GetDistance] returns the sum over the paired samples of
    the absolute difference of the first channel, the other three being
    ignored, and that sum is not negative. *)
Theorem GetDistance_first_channel_rgba (pixels_a pixels_b : list Pixel) :
  length pixels_a = length pixels_b →
  Forall (fun p => length p = 4%nat) pixels_a →
  Forall (fun p => length p = 4%nat) pixels_b →
  GetDistance pixels_a pixels_b
  = Ok (first_channel_distance pixels_a pixels_b) ∧
  0 ≤ first_channel_distance pixels_a pixels_b.
Proof.
  intros Hlen Ha Hb.
  rewrite <- (four_channels_distance pixels_a pixels_b Ha Hb).
  split; [|apply leading_channels_distance_nonneg].
  apply GetDistance_leading_channels, Forall2_by_length; [exact Hlen|].
  intros p q Hp Hq. rewrite Forall_forall in Ha, Hb.
  unfold channels_available. rewrite (Ha p Hp), (Hb q Hq). lia.
Qed.

Lemma GetDistance_first_channel_rgba_witness :
  GetDistance rgba_a rgba_b = Ok (first_channel_distance rgba_a rgba_b) ∧
  0 ≤ first_channel_distance rgba_a rgba_b.
Proof.
  apply GetDistance_first_channel_rgba;
    [reflexivity | repeat constructor | repeat constructor].
Defined.

(** C1 as it is stated fails on pixels that have three channels: the two
    borders differ by 4 in their first channel and their distance is 0. *)
Lemma GetDistance_rgb_counterexample :
  length rgb_a = length rgb_b ∧
  first_channel_distance rgb_a rgb_b = 4 ∧
  GetDistance rgb_a rgb_b = Ok 0 ∧
  GetDistance rgb_a rgb_b ≠ Ok (first_channel_distance rgb_a rgb_b).
Proof. split_and!; [reflexivity | reflexivity | reflexivity | discriminate]. Qed.

(** C8.  On two equal-length borders whose paired pixels have the same
    number of channels, the distance is defined and does not depend on the
    order of the two borders. *)
Theorem GetDistance_symmetric (pixels_a pixels_b : list Pixel) :
  length pixels_a = length pixels_b →
  (∀ i p q, pixels_a !! i = Some p → pixels_b !! i = Some q →
            length p = length q) →
  GetDistance pixels_a pixels_b = GetDistance pixels_b pixels_a ∧
  ∃ d, GetDistance pixels_a pixels_b = Ok d ∧ 0 ≤ d.
Proof.
  intros Hlen Hch.
  assert (Hab : Forall2 same_channels pixels_a pixels_b)
    by (apply Forall2_same_length_lookup_2; [exact Hlen | exact Hch]).
  assert (Hba : Forall2 same_channels pixels_b pixels_a).
  { apply Forall2_same_length_lookup_2; [symmetry; exact Hlen|].
    intros i q p Hq Hp. symmetry. exact (Hch i p q Hp Hq). }
  rewrite (GetDistance_leading_channels _ _ (same_channels_available _ _ Hab)).
  rewrite (GetDistance_leading_channels _ _ (same_channels_available _ _ Hba)).
  split.
  - f_equal. apply leading_channels_distance_sym, Hab.
  - eexists. split; [reflexivity | apply leading_channels_distance_nonneg].
Qed.

Lemma GetDistance_symmetric_witness :
  GetDistance rgba_a rgba_b = GetDistance rgba_b rgba_a ∧
  ∃ d, GetDistance rgba_a rgba_b = Ok d ∧ 0 ≤ d.
Proof.
  apply GetDistance_symmetric; [reflexivity|].
  intros [|[|i]] p q Hp Hq; simpl in Hp, Hq; try discriminate;
    injection Hp as <-; injection Hq as <-; reflexivity.
Defined.

(** C9.  On two equal-length sequences of pixels with exactly three
    channels the distance is 0, whatever the pixels hold: the channel loop
    runs over [range(0)]. *)
Theorem GetDistance_three_channels_zero (pixels_a pixels_b : list Pixel) :
  length pixels_a = length pixels_b →
  Forall (fun p => length p = 3%nat) pixels_a →
  Forall (fun p => length p = 3%nat) pixels_b →
  GetDistance pixels_a pixels_b = Ok 0.
Proof.
  intros Hlen Ha Hb.
  rewrite <- (three_channels_distance pixels_a pixels_b Ha).
  apply GetDistance_leading_channels, Forall2_by_length; [exact Hlen|].
  intros p q Hp Hq. rewrite Forall_forall in Ha.
  unfold channels_available. rewrite (Ha p Hp). lia.
Qed.

Lemma GetDistance_three_channels_zero_witness :
  GetDistance rgb_a rgb_b = Ok 0.
Proof.
  apply GetDistance_three_channels_zero;
    [reflexivity | repeat constructor | repeat constructor].
Defined.

(** ** The matching pass *)

(** Goals about the three example strips, one strip at a time. *)
Ltac each_strip i H :=
  destruct i as [|[|[|i]]]; cbn in H; try discriminate H;
  try (injection H as <-).

(** C2.  Start from fresh strips whose pairwise scores all lie below the
    sentinel.  Then [FindNeighbors] returns, and on every side of every strip
    the neighbour and distance it leaves are those of a candidate whose
    score no other candidate undercuts and which every earlier candidate
    exceeds strictly: the first minimum.  And a call whose score is not below
    the stored distance, in particular one that ties with it, leaves the
    store as it was. *)
Theorem FindNeighbors_keeps_first_minimum (strips : list Strip) :
  Forall fresh strips →
  (∀ i j edge, (i < length strips)%nat → (j < length strips)%nat → i ≠ j →
     ∃ d, candidate_score strips i j edge = Ok d ∧ d < MAX) →
  (∃ strips',
     FindNeighbors strips = Ok strips' ∧
     length strips' = length strips ∧
     ∀ i s' edge k,
       strips' !! i = Some s' → (k < length strips)%nat → k ≠ i →
       ∃ j dk,
         get (_neighbors s') edge = Some j ∧ j ≠ i ∧
         (j < length strips)%nat ∧
         candidate_score strips i j edge = Ok (get (_min_distances s') edge) ∧
         candidate_score strips i k edge = Ok dk ∧
         get (_min_distances s') edge ≤ dk ∧
         ((k < j)%nat → get (_min_distances s') edge < dk)) ∧
  (∀ st self neighbor edge s d,
     st !! self = Some s →
     candidate_score st self neighbor edge = Ok d →
     get (_min_distances s) edge ≤ d →
     _NeighborDistance st self neighbor edge (opposite edge) = Ok (st, d)).
Proof.
  intros Hfresh Hscores. split.
  - assert (Hdef : scores_defined strips).
    { intros i j edge Hi Hj Hne.
      destruct (Hscores i j edge Hi Hj Hne) as (d & Hd & _). eauto. }
    destruct (FindNeighbors_best strips Hfresh Hdef)
      as (st & Hrun & Hst & Hbest).
    exists st. split_and!; [exact Hrun | apply (Forall2_length _ _ _ Hst) |].
    intros i s' edge k Hs' Hk Hne.
    assert (Hi : (i < length strips)%nat)
      by (rewrite <- (Forall2_length _ _ _ Hst); eapply lookup_lt_Some, Hs').
    destruct (Hscores i k edge Hi Hk ltac:(congruence)) as (dk & Hdk & Hlt).
    pose proof (Hbest i s' Hs' edge) as Hb.
    destruct (get (_neighbors s') edge) as [j|]; simpl in Hb.
    + destruct Hb as (Hj & Hji & _ & Hsc & Hall).
      exists j, dk. destruct (Hall k dk Hk Hne Hdk) as [Hle Hstrict].
      split_and!; auto.
    + destruct Hb as (_ & Hall). specialize (Hall k dk Hk Hne Hdk). lia.
  - intros st self neighbor edge s d Hs Hd Hle.
    rewrite (NeighborDistance_score st self neighbor edge s d Hs Hd).
    unfold keep_min.
    destruct (Z.ltb_spec d (get (_min_distances s) edge)); [lia|].
    rewrite (list_insert_id _ _ _ Hs). reflexivity.
Qed.

Lemma example_scores_below_sentinel :
  ∀ i j edge,
    (i < length example_strips)%nat → (j < length example_strips)%nat →
    i ≠ j →
    ∃ d, candidate_score example_strips i j edge = Ok d ∧ d < MAX.
Proof.
  intros i j edge Hi Hj Hne. cbn in Hi, Hj.
  destruct i as [|[|[|i]]]; [| | |lia];
    (destruct j as [|[|[|j]]]; [| | |lia]);
    try congruence; destruct edge;
    (eexists; split; [reflexivity | reflexivity]).
Defined.

Lemma FindNeighbors_keeps_first_minimum_witness :
  ∃ strips',
    FindNeighbors example_strips = Ok strips' ∧
    length strips' = length example_strips ∧
    ∀ i s' edge k,
      strips' !! i = Some s' → (k < length example_strips)%nat → k ≠ i →
      ∃ j dk,
        get (_neighbors s') edge = Some j ∧ j ≠ i ∧
        (j < length example_strips)%nat ∧
        candidate_score example_strips i j edge
        = Ok (get (_min_distances s') edge) ∧
        candidate_score example_strips i k edge = Ok dk ∧
        get (_min_distances s') edge ≤ dk ∧
        ((k < j)%nat → get (_min_distances s') edge < dk).
Proof.
  apply (FindNeighbors_keeps_first_minimum example_strips);
    [repeat constructor | exact example_scores_below_sentinel].
Defined.

(** C6.  Start the matching pass from fresh strips and stop it after any
    number of its calls, or let it finish: in the store reached, no strip is
    its own best neighbour on either side. *)
Theorem best_neighbor_never_self (strips strips' : list Strip)
    (done : list Call) :
  Forall fresh strips →
  done `prefix_of` FindNeighbors_calls (length strips) →
  run_calls done strips = Ok strips' →
  ∀ i s edge, strips' !! i = Some s → get (_neighbors s) edge ≠ Some i.
Proof.
  intros Hfresh [rest Hcalls] Hrun.
  apply (run_calls_no_self done strips strips'); [|exact Hrun|].
  - pose proof (FindNeighbors_calls_distinct (length strips)) as Hd.
    rewrite Hcalls in Hd. apply Forall_app in Hd. apply Hd.
  - apply fresh_no_self, Hfresh.
Qed.

Lemma best_neighbor_never_self_witness :
  run_calls (FindNeighbors_calls (length example_strips)) example_strips
  = Ok example_matched ∧
  ∀ i s edge, example_matched !! i = Some s → get (_neighbors s) edge ≠ Some i.
Proof.
  split; [reflexivity|].
  apply (best_neighbor_never_self example_strips example_matched
           (FindNeighbors_calls (length example_strips)));
    [repeat constructor | exists []; symmetry; apply app_nil_r | reflexivity].
Defined.

(** C10.  Take at least two fresh strips whose borders all hold [n] samples
    of four channels with values from 0 to 255, where 255 times [n] is below
    the sentinel [MAX].  Then every pairwise score is at most 255 times [n],
    hence below [MAX]; [FindNeighbors] returns; and afterwards every strip has
    a left and a right best neighbour. *)
Theorem FindNeighbors_assigns_every_neighbor (n : nat) (strips : list Strip) :
  (2 ≤ length strips)%nat →
  Forall fresh strips →
  (∀ s edge, s ∈ strips →
     length (GetBorderPixels s edge) = n ∧
     Forall rgba_pixel (GetBorderPixels s edge)) →
  255 * Z.of_nat n < MAX →
  (∀ i j edge, (i < length strips)%nat → (j < length strips)%nat →
     ∃ d, candidate_score strips i j edge = Ok d ∧
          0 ≤ d ≤ 255 * Z.of_nat n ∧ d < MAX) ∧
  ∃ strips',
    FindNeighbors strips = Ok strips' ∧
    length strips' = length strips ∧
    ∀ i s, strips' !! i = Some s →
           is_Some (GetLeftNeighbor s) ∧ is_Some (GetRightNeighbor s).
Proof.
  intros Hlen Hfresh Hb Hn. split.
  - intros i j edge Hi Hj.
    destruct (candidate_score_rgba n strips i j edge Hb Hi Hj) as (d & Hd & ?).
    exists d. split_and!; [exact Hd | lia | lia | lia].
  - destruct (FindNeighbors_assigns n strips Hlen Hfresh Hb Hn)
      as (st & Hrun & Hl & _ & Hm).
    exists st. split_and!; [exact Hrun | exact Hl |].
    intros i s Hs. split; [apply (Hm i s L Hs) | apply (Hm i s R Hs)].
Qed.

Lemma example_rgba_borders :
  ∀ s edge, s ∈ example_strips →
    length (GetBorderPixels s edge) = 2%nat ∧
    Forall rgba_pixel (GetBorderPixels s edge).
Proof.
  intros s edge Hs. apply list_elem_of_lookup_1 in Hs as [i Hi].
  each_strip i Hi; destruct edge;
    (split; [reflexivity|]);
    repeat (constructor; [split; [reflexivity | repeat constructor; lia]|]);
    constructor.
Defined.

Lemma FindNeighbors_assigns_every_neighbor_witness :
  (∀ i j edge,
     (i < length example_strips)%nat → (j < length example_strips)%nat →
     ∃ d, candidate_score example_strips i j edge = Ok d ∧
          0 ≤ d ≤ 255 * Z.of_nat 2 ∧ d < MAX) ∧
  ∃ strips',
    FindNeighbors example_strips = Ok strips' ∧
    length strips' = length example_strips ∧
    ∀ i s, strips' !! i = Some s →
           is_Some (GetLeftNeighbor s) ∧ is_Some (GetRightNeighbor s).
Proof.
  apply (FindNeighbors_assigns_every_neighbor 2 example_strips);
    [cbn; lia | repeat constructor | exact example_rgba_borders | reflexivity].
Defined.

(** With the constants of the source a border holds 180 samples, and 255
    times 180 is below the sentinel. *)
Lemma source_sample_count : sample_count source_config = 180%nat.
Proof. reflexivity. Qed.

Lemma source_scores_below_sentinel :
  255 * Z.of_nat (sample_count source_config) < MAX.
Proof. reflexivity. Qed.

(** So the strips the source makes of an RGBA image, two or more, all find
    their neighbours. *)
Lemma FindNeighbors_assigns_source (strips : list Strip) :
  (2 ≤ length strips)%nat →
  Forall (fun s => ∃ image position,
            strip_shaped source_config image ∧
            Strip_init source_config image position = Ok s) strips →
  (∀ s edge, s ∈ strips → Forall rgba_pixel (GetBorderPixels s edge)) →
  ∃ strips', FindNeighbors strips = Ok strips' ∧ matched strips'.
Proof.
  intros Hlen Hinit Hrgba.
  assert (Hshape : ∀ s, s ∈ strips →
            fresh s ∧ ∀ edge, length (GetBorderPixels s edge)
                              = sample_count source_config).
  { intros s Hs. rewrite Forall_forall in Hinit.
    destruct (Hinit s Hs) as (image & position & Hsh & Hs0).
    destruct (Strip_init_fresh source_config image position) as
      (left & right & Hs1 & Hleft & Hright); [reflexivity | reflexivity | exact Hsh |].
    rewrite Hs1 in Hs0. injection Hs0 as <-. split; [split; reflexivity|].
    apply Forall2_length in Hleft, Hright.
    unfold sample_rows in Hleft, Hright.
    rewrite length_map, length_seq in Hleft, Hright.
    intros [|]; cbn; congruence. }
  destruct (FindNeighbors_assigns (sample_count source_config) strips)
    as (st & Hrun & _ & _ & Hm);
    [exact Hlen | | | exact source_scores_below_sentinel | eauto].
  - apply Forall_forall. intros s Hs. apply (Hshape s Hs).
  - intros s edge Hs. split; [apply (Hshape s Hs) | apply (Hrgba s edge Hs)].
Qed.

(** The example picture, step by step. *)
Example GetStrips_example :
  GetStrips example_config example_image = Ok example_strips.
Proof. reflexivity. Qed.

Example FindNeighbors_example :
  FindNeighbors example_strips = Ok example_matched.
Proof. reflexivity. Qed.

(** A tie: the second and third strip score the same against the first, and
    the first keeps the second. *)
Example tie_keeps_first_candidate :
  candidate_score tie_strips 0 1 R = candidate_score tie_strips 0 2 R ∧
  ∃ st s, FindNeighbors tie_strips = Ok st ∧ st !! 0%nat = Some s ∧
          GetRightNeighbor s = Some 1%nat ∧ GetLeftNeighbor s = Some 1%nat.
Proof. split; [reflexivity|]. do 2 eexists. split_and!; reflexivity. Qed.


(** ** Edge detection, on the examples *)

Lemma example_matched_matched : matched example_matched.
Proof.
  intros i s edge Hs. each_strip i Hs; destruct edge; eexists; reflexivity.
Defined.

Lemma example_matched_refs_valid : refs_valid example_matched.
Proof.
  intros i s edge j Hs Hj.
  each_strip i Hs; destruct edge; cbn in Hj; injection Hj as <-; cbn; lia.
Defined.

Lemma DetectLeftEdge_returns_first_offender_witness :
  match DetectLeftEdge example_matched with
  | Ok (Some i) =>
      broken_reciprocity example_matched i ∧
      ∀ k, (k < i)%nat → ¬ broken_reciprocity example_matched k
  | Ok None => ∀ k, ¬ broken_reciprocity example_matched k
  | Raise _ => False
  end.
Proof.
  apply (DetectLeftEdge_returns_first_offender example_matched);
    [exact example_matched_matched | exact example_matched_refs_valid].
Defined.

(** C3 as it is stated fails on two strips: after matching each is the
    other's neighbour on both sides, no strip breaks reciprocity, and
    [DetectLeftEdge] returns no strip. *)
Lemma DetectLeftEdge_pair_counterexample :
  FindNeighbors pair_strips = Ok pair_matched ∧
  DetectLeftEdge pair_matched = Ok None ∧
  ¬ ∃ i, DetectLeftEdge pair_matched = Ok (Some i).
Proof.
  split_and!; [reflexivity | reflexivity |]. intros [i Hi]. discriminate Hi.
Qed.

Example DetectLeftEdge_example :
  DetectLeftEdge example_matched = Ok (Some 2%nat).
Proof. reflexivity. Qed.

(** ** Chain assembly *)

(** C4.  Let the strip width be positive and divide the image width, let
    the store be matched, and let the interpreter leave room for as many
    nested activations as there are slots, [IMAGE_WIDTH / STRIP_WIDTH].
    Started at a strip [e] with count 0 on a new raster, [OrderStrips]
    returns a raster with exactly [IMAGE_WIDTH / STRIP_WIDTH] pastes: slot
    [k] is pasted exactly when its offset [k * STRIP_WIDTH] is below the
    image width, it holds the image of the strip reached from [e] by [k]
    right-neighbour links, pasted at column [k * STRIP_WIDTH], and with
    strip images [STRIP_WIDTH] wide the columns of the raster from
    [k * STRIP_WIDTH] up to [(k + 1) * STRIP_WIDTH] come from it. *)
Theorem OrderStrips_pastes_chain (cfg : Config) (room : nat)
    (strips : list Strip) (e : nat) (sz : Z * Z) :
  0 < STRIP_WIDTH cfg →
  (STRIP_WIDTH cfg | IMAGE_WIDTH cfg) →
  (Z.to_nat (IMAGE_WIDTH cfg / STRIP_WIDTH cfg) ≤ room)%nat →
  matched strips → refs_valid strips →
  (e < length strips)%nat →
  (∀ s, s ∈ strips → fst (size (GetImage s)) = STRIP_WIDTH cfg) →
  ∃ image',
    OrderStrips cfg room strips (new_canvas sz) (Some e) 0 = Ok image' ∧
    canvas_size image' = sz ∧
    length (pastes image')
    = Z.to_nat (IMAGE_WIDTH cfg / STRIP_WIDTH cfg) ∧
    (∀ k : nat, (k < length (pastes image'))%nat
                ↔ Z.of_nat k * STRIP_WIDTH cfg < IMAGE_WIDTH cfg) ∧
    ∀ k : nat, (k < length (pastes image'))%nat →
      ∃ i s,
        nth_right strips (Some e) k = Some i ∧
        strips !! i = Some s ∧
        pastes image' !! k
        = Some (GetImage s, (Z.of_nat k * STRIP_WIDTH cfg, 0)) ∧
        ∀ c, Z.of_nat k * STRIP_WIDTH cfg ≤ c
               < (Z.of_nat k + 1) * STRIP_WIDTH cfg →
             c < fst sz →
             column_source image' c
             = Some (GetImage s, c - Z.of_nat k * STRIP_WIDTH cfg).
Proof.
  intros Hsw [q Hq] Hroom Hm Hv He Hwide.
  set (n := Z.to_nat (IMAGE_WIDTH cfg / STRIP_WIDTH cfg)) in *.
  assert (Hdiv : IMAGE_WIDTH cfg / STRIP_WIDTH cfg = q)
    by (rewrite Hq; apply Z.div_mul; lia).
  assert (Hslots : ∀ k : nat, (k < n)%nat
                     ↔ Z.of_nat k * STRIP_WIDTH cfg < IMAGE_WIDTH cfg).
  { intros k. unfold n. rewrite Hdiv, Hq. split; intros H; [|nia].
    assert (Z.of_nat k < q) by lia. nia. }
  destruct (Z.le_gt_cases (IMAGE_WIDTH cfg) 0) as [Hneg|Hpos].
  - (* nothing to paste: the first test already stops *)
    assert (Hn : n = 0%nat) by (unfold n; rewrite Hdiv; nia).
    exists (new_canvas sz). unfold OrderStrips.
    rewrite OrderStrips_rec_stop by lia. cbn [new_canvas pastes length].
    split_and!; [reflexivity | reflexivity | lia | | intros k Hk; lia].
    intros k. rewrite <- Hslots. lia.
  - assert (Hwidth : IMAGE_WIDTH cfg = Z.of_nat n * STRIP_WIDTH cfg)
      by (unfold n; rewrite Hdiv, Hq; nia).
    destruct (OrderStrips_rec_slots cfg strips n Hsw Hwidth Hm Hv n 0
                room (new_canvas sz) e)
      as (tail & Hrun & Hlen & Htail); [lia | exact Hroom | exact He |].
    cbn [new_canvas canvas_size pastes app] in Hrun.
    exists (mkCanvas sz tail). cbn [pastes canvas_size].
    split_and!; [exact Hrun | reflexivity | exact Hlen | | ].
    + intros k. rewrite Hlen. apply Hslots.
    + intros k Hk. rewrite Hlen in Hk.
      destruct (Htail k Hk) as (i & s & Hi & Hs & Hp).
      exists i, s. split_and!; [exact Hi | exact Hs | exact Hp |].
      intros c Hc Hin.
      assert (Hcol : 0 ≤ c < fst sz) by nia.
      rewrite (column_source_side_by_side cfg sz c Hsw Hcol tail) with
        (k := k) (p := (GetImage s, (Z.of_nat k * STRIP_WIDTH cfg, 0)));
        [reflexivity | | exact Hp | ].
      * intros k' p' Hp'.
        destruct (Htail k') as (i' & s' & _ & Hs' & Hp'');
          [rewrite <- Hlen; eapply lookup_lt_Some, Hp'|].
        rewrite Hp'' in Hp'. injection Hp' as <-. cbn. split; [lia|].
        apply Hwide. eapply list_elem_of_lookup_2, Hs'.
      * unfold covers. cbn [fst snd].
        rewrite (Hwide s) by (eapply list_elem_of_lookup_2, Hs).
        apply andb_true_intro. split; [apply Z.leb_le | apply Z.ltb_lt]; lia.
Qed.

Lemma example_strips_wide :
  ∀ s, s ∈ example_matched →
       fst (size (GetImage s)) = STRIP_WIDTH example_config.
Proof.
  intros s Hs. apply list_elem_of_lookup_1 in Hs as [i Hi].
  each_strip i Hi; reflexivity.
Defined.

Lemma OrderStrips_pastes_chain_witness :
  ∃ image',
    OrderStrips example_config example_room example_matched
                (new_canvas (6, 2)) (Some 2%nat) 0 = Ok image' ∧
    canvas_size image' = (6, 2) ∧
    length (pastes image')
    = Z.to_nat (IMAGE_WIDTH example_config / STRIP_WIDTH example_config) ∧
    (∀ k : nat, (k < length (pastes image'))%nat
                ↔ Z.of_nat k * STRIP_WIDTH example_config
                  < IMAGE_WIDTH example_config) ∧
    ∀ k : nat, (k < length (pastes image'))%nat →
      ∃ i s,
        nth_right example_matched (Some 2%nat) k = Some i ∧
        example_matched !! i = Some s ∧
        pastes image' !! k
        = Some (GetImage s, (Z.of_nat k * STRIP_WIDTH example_config, 0)) ∧
        ∀ c, Z.of_nat k * STRIP_WIDTH example_config ≤ c
               < (Z.of_nat k + 1) * STRIP_WIDTH example_config →
             c < fst (6, 2) →
             column_source image' c
             = Some (GetImage s, c - Z.of_nat k * STRIP_WIDTH example_config).
Proof.
  apply (OrderStrips_pastes_chain example_config example_room
           example_matched 2 (6, 2));
    [reflexivity | exists 3; reflexivity | vm_compute; lia
    | exact example_matched_matched
    | exact example_matched_refs_valid | cbn; lia | exact example_strips_wide].
Defined.

(** The whole pipeline on the example picture: X, Y, Z from left to
    right. *)
Example main_example :
  main example_config example_room example_image
  = Ok (mkCanvas (6, 2) [(strip_x, (0, 0)); (strip_y, (2, 0));
                         (strip_z, (4, 0))]).
Proof. reflexivity. Qed.

(** With the constants of the source twenty strips are cut and pasted, well
    within the room of the examples. *)
Example source_strip_count :
  Z.to_nat (IMAGE_WIDTH source_config / STRIP_WIDTH source_config) = 20%nat
  ∧ strip_slots source_config = 20%nat ∧ (20 ≤ example_room)%nat.
Proof. split_and!; [reflexivity | reflexivity | vm_compute; lia]. Qed.

(** When the room runs out before the width is filled the call raises
    instead of returning: two strips that are each other's neighbour, an
    image width of four strips, room for three activations. *)
Example OrderStrips_out_of_room :
  OrderStrips (mkConfig 2 8 2 1) 3 pair_matched (new_canvas (8, 2))
              (Some 0%nat) 0
  = Raise RecursionError.
Proof. reflexivity. Qed.

(** ** Border sampling *)

(** C5.  Let the stride and the strip width be positive and let the image of
    a strip have the shape [_GetStrip] gives it.  On either side,
    [_LoadBorder] returns; it reads the edge column ([0] on the left,
    [STRIP_WIDTH - 1] on the right) at the rows [0], [SAMPLING_DISTANCE],
    [2 * SAMPLING_DISTANCE], ... that are below the height of the strip, and
    at no other place; and it appends to the border the pixels found there,
    in that order. *)
Theorem LoadBorder_samples_edge_column (cfg : Config) (self : Strip)
    (border : Border) :
  0 < SAMPLING_DISTANCE cfg → 0 < STRIP_WIDTH cfg →
  strip_shaped cfg (_image self) →
  ∃ self' samples,
    _LoadBorder cfg self border
    = Ok (self', map (fun y => (BORDERS cfg border, y))
                     (sample_rows cfg (sample_count cfg))) ∧
    GetBorderPixels self' border = GetBorderPixels self border ++ samples ∧
    Forall2 (fun y p => pixel_at (_image self) (BORDERS cfg border) y = Some p)
            (sample_rows cfg (sample_count cfg)) samples ∧
    (∀ k : nat, (k < sample_count cfg)%nat
                ↔ Z.of_nat k * SAMPLING_DISTANCE cfg
                  < snd (size (_image self))) ∧
    (∀ y, y ∈ sample_rows cfg (sample_count cfg) →
          0 ≤ y < snd (size (_image self))) ∧
    BORDERS cfg L = 0 ∧ BORDERS cfg R = fst (size (_image self)) - 1.
Proof.
  intros Hsd Hsw Hsh.
  destruct (LoadBorder_samples cfg self border Hsd Hsw Hsh)
    as (samples & Hrun & Hrows).
  destruct Hsh as [Hsize _]. rewrite Hsize. cbn [fst snd].
  exists (extend_border self border samples), samples.
  split_and!; [exact Hrun | | exact Hrows | | | reflexivity | reflexivity].
  - unfold GetBorderPixels, extend_border. cbn. apply get_set_eq.
  - intros k. apply sample_count_spec, Hsd.
  - intros y. apply sample_rows_inside, Hsd.
Qed.

Lemma LoadBorder_samples_edge_column_witness :
  ∃ self' samples,
    _LoadBorder example_config
      (mkStrip 0 strip_y (mkDict None None) (mkDict MAX MAX) (mkDict [] [])) R
    = Ok (self', map (fun y => (BORDERS example_config R, y))
                     (sample_rows example_config
                                  (sample_count example_config))) ∧
    GetBorderPixels self' R = [] ++ samples ∧
    Forall2 (fun y p => pixel_at strip_y (BORDERS example_config R) y = Some p)
            (sample_rows example_config (sample_count example_config))
            samples ∧
    (∀ k : nat, (k < sample_count example_config)%nat
                ↔ Z.of_nat k * SAMPLING_DISTANCE example_config
                  < snd (size strip_y)) ∧
    (∀ y, y ∈ sample_rows example_config (sample_count example_config) →
          0 ≤ y < snd (size strip_y)) ∧
    BORDERS example_config L = 0 ∧
    BORDERS example_config R = fst (size strip_y) - 1.
Proof.
  apply (LoadBorder_samples_edge_column example_config
           (mkStrip 0 strip_y (mkDict None None) (mkDict MAX MAX)
                    (mkDict [] [])) R);
    [reflexivity | reflexivity | split; reflexivity].
Defined.

(** With the constants of the source the rows are 0, 2, ..., 358. *)
Example source_sample_rows :
  sample_rows source_config (sample_count source_config)
  = map (fun k => 2 * Z.of_nat k) (seq 0 180).
Proof. reflexivity. Qed.

(** ** An image one strip wide *)

Lemma one_strip_pipeline_raises_witness :
  ∃ s,
    GetStrips one_strip_config one_strip_image = Ok [s] ∧
    _position s = 0 ∧
    _image s
    = crop one_strip_image
        (0, 0, STRIP_WIDTH one_strip_config, IMAGE_HEIGHT one_strip_config) ∧
    FindNeighbors_calls (length [s]) = [] ∧
    FindNeighbors [s] = Ok [s] ∧
    GetLeftNeighbor s = None ∧ GetRightNeighbor s = None ∧
    DetectLeftEdge [s] = Raise AttributeError ∧
    main one_strip_config example_room one_strip_image
    = Raise AttributeError.
Proof.
  apply (one_strip_pipeline_raises one_strip_config example_room
           one_strip_image);
    reflexivity.
Defined.

(** The failure belongs to the constants, not to the file handed in: with
    [IMAGE_WIDTH] three strips wide the same image, one strip wide, is cut
    into that strip and two strips of zeros, and a raster is returned. *)
Example one_strip_image_wider_constant :
  size one_strip_image
  = (STRIP_WIDTH example_config, IMAGE_HEIGHT example_config) ∧
  ∃ image, main example_config example_room one_strip_image = Ok image ∧
           length (pastes image) = 3%nat.
Proof. split; [reflexivity|]. eexists. split; reflexivity. Qed.

(** C7 as it is stated fails: on an image one strip wide the pipeline ends
    in an error and returns no raster. *)
Lemma one_strip_counterexample :
  IMAGE_WIDTH one_strip_config = STRIP_WIDTH one_strip_config ∧
  size one_strip_image
  = (STRIP_WIDTH one_strip_config, IMAGE_HEIGHT one_strip_config) ∧
  main one_strip_config example_room one_strip_image
  = Raise AttributeError ∧
  ¬ ∃ image, main one_strip_config example_room one_strip_image = Ok image.
Proof.
  split_and!; [reflexivity | reflexivity | reflexivity |].
  intros [image Himage]. discriminate Himage.
Qed.

(** * Further properties *)

(** ** More on the distance *)

Section Distance_more.

Implicit Types (a_rgb b_rgb : Pixel) (pixels_a pixels_b : list Pixel).

Lemma channel_loop_grows js : ∀ a_rgb b_rgb distance r,
  channel_loop js a_rgb b_rgb distance = Ok r → distance ≤ r.
Proof.
  induction js as [|j js IH]; intros a b d r; cbn [channel_loop].
  - intros [= <-]. lia.
  - destruct (a !! j) as [x|]; [|discriminate].
    destruct (b !! j) as [y|]; [|discriminate].
    intros H. apply IH in H. lia.
Qed.

Lemma channel_loop_error js : ∀ a_rgb b_rgb distance e,
  channel_loop js a_rgb b_rgb distance = Raise e → e = IndexError.
Proof.
  induction js as [|j js IH]; intros a b d e; cbn [channel_loop].
  - discriminate.
  - destruct (a !! j) as [x|]; [|congruence].
    destruct (b !! j) as [y|]; [|congruence].
    apply IH.
Qed.

Lemma pixel_loop_grows idxs : ∀ pixels_a pixels_b distance r,
  pixel_loop idxs pixels_a pixels_b distance = Ok r → distance ≤ r.
Proof.
  induction idxs as [|i idxs IH]; intros a b d r; cbn [pixel_loop].
  - intros [= <-]. lia.
  - destruct (a !! i) as [p|]; [|discriminate].
    destruct (b !! i) as [q|]; [|discriminate].
    intros H. apply result_bind_inv in H as (d' & Hc & H).
    apply channel_loop_grows in Hc. apply IH in H. lia.
Qed.

Lemma pixel_loop_error idxs : ∀ pixels_a pixels_b distance e,
  pixel_loop idxs pixels_a pixels_b distance = Raise e → e = IndexError.
Proof.
  induction idxs as [|i idxs IH]; intros a b d e; cbn [pixel_loop].
  - discriminate.
  - destruct (a !! i) as [p|]; [|congruence].
    destruct (b !! i) as [q|]; [|congruence].
    destruct (channel_loop (channel_range p) p q d) as [d'|e'] eqn:Hc.
    + apply IH.
    + cbn. intros [= <-]. eapply channel_loop_error, Hc.
Qed.

(** A loop that returns has found every sample it asked for. *)
Lemma pixel_loop_reads idxs : ∀ pixels_a pixels_b distance r,
  pixel_loop idxs pixels_a pixels_b distance = Ok r →
  ∀ i, i ∈ idxs → is_Some (pixels_b !! i).
Proof.
  induction idxs as [|i idxs IH]; intros a b d r; cbn [pixel_loop].
  - intros _ j Hj. inversion Hj.
  - destruct (a !! i) as [p|]; [|discriminate].
    destruct (b !! i) as [q|] eqn:Hq; [|discriminate].
    intros H j Hj. apply result_bind_inv in H as (d' & _ & H).
    apply elem_of_cons in Hj as [->|Hj]; [eauto | eapply IH; eauto].
Qed.

(** The loop looks at the listed samples only. *)
Lemma pixel_loop_app idxs : ∀ pixels_a pixels_b extra distance,
  (∀ i, i ∈ idxs → (i < length pixels_b)%nat) →
  pixel_loop idxs pixels_a (pixels_b ++ extra) distance
  = pixel_loop idxs pixels_a pixels_b distance.
Proof.
  induction idxs as [|i idxs IH]; intros a b extra d Hin; cbn [pixel_loop];
    [reflexivity|].
  rewrite lookup_app_l by (apply Hin; left).
  destruct (a !! i) as [p|]; [|reflexivity].
  destruct (b !! i) as [q|]; [|reflexivity].
  destruct (channel_loop (channel_range p) p q d) as [d'|e]; [|reflexivity].
  cbn. apply IH. intros j Hj. apply Hin. right. exact Hj.
Qed.

Lemma channel_sum_self n : ∀ a_rgb, channel_sum n a_rgb a_rgb = 0.
Proof.
  induction n as [|n IH]; intros [|x a]; cbn [channel_sum]; try reflexivity.
  rewrite IH. lia.
Qed.

Lemma leading_channels_distance_self pixels_a :
  leading_channels_distance pixels_a pixels_a = 0.
Proof.
  induction pixels_a as [|p rest IH]; cbn [leading_channels_distance];
    [reflexivity|].
  rewrite IH, channel_sum_self. reflexivity.
Qed.

Lemma channel_sum_triangle n : ∀ a_rgb b_rgb c_rgb,
  length a_rgb = length b_rgb → length b_rgb = length c_rgb →
  channel_sum n a_rgb c_rgb
  ≤ channel_sum n a_rgb b_rgb + channel_sum n b_rgb c_rgb.
Proof.
  induction n as [|n IH]; intros [|x a] [|y b] [|z c] Hab Hbc;
    cbn [channel_sum]; try lia; try discriminate.
  specialize (IH a b c ltac:(simpl in Hab; lia) ltac:(simpl in Hbc; lia)).
  lia.
Qed.

Lemma leading_channels_distance_triangle pixels_a pixels_b :
  Forall2 same_channels pixels_a pixels_b →
  ∀ pixels_c, Forall2 same_channels pixels_b pixels_c →
  leading_channels_distance pixels_a pixels_c
  ≤ leading_channels_distance pixels_a pixels_b
    + leading_channels_distance pixels_b pixels_c.
Proof.
  induction 1 as [|p q rest_a rest_b Hpq _ IH]; intros pixels_c Hbc;
    inversion Hbc as [|? r ? rest_c Hqr Hrest]; subst;
    cbn [leading_channels_distance]; [lia|].
  specialize (IH rest_c Hrest).
  pose proof (channel_sum_triangle (length p - 3) p q r Hpq Hqr) as Ht.
  unfold same_channels in Hpq. rewrite <- Hpq. lia.
Qed.

Lemma same_channels_trans pixels_a pixels_b :
  Forall2 same_channels pixels_a pixels_b →
  ∀ pixels_c, Forall2 same_channels pixels_b pixels_c →
  Forall2 same_channels pixels_a pixels_c.
Proof.
  induction 1 as [|p q rest_a rest_b Hpq _ IH]; intros pixels_c Hbc;
    inversion Hbc as [|? r ? rest_c Hqr Hrest]; subst; constructor.
  - unfold same_channels in *. congruence.
  - apply IH, Hrest.
Qed.

End Distance_more.

(** X1.  The distance of a border to itself is 0, whatever the border
    holds. *)
Theorem GetDistance_self_zero (pixels : list Pixel) :
  GetDistance pixels pixels = Ok 0.
Proof.
  rewrite GetDistance_leading_channels.
  - rewrite leading_channels_distance_self. reflexivity.
  - apply Forall2_same_length_lookup_2; [reflexivity|].
    intros i p q Hp Hq. unfold channels_available.
    assert (p = q) by congruence. subst. lia.
Qed.

(** X2.  Whatever the two sequences are, a distance that [GetDistance]
    returns is not negative. *)
Theorem GetDistance_never_negative (pixels_a pixels_b : list Pixel) (d : Z) :
  GetDistance pixels_a pixels_b = Ok d → 0 ≤ d.
Proof. unfold GetDistance. apply pixel_loop_grows. Qed.

Lemma GetDistance_never_negative_witness :
  GetDistance rgba_a rgba_b = Ok 7 ∧ 0 ≤ 7.
Proof.
  split; [reflexivity|].
  apply (GetDistance_never_negative rgba_a rgba_b 7). reflexivity.
Defined.

(** X3.  When the second sequence is shorter than the first,
    [GetDistance] raises [IndexError]. *)
Theorem GetDistance_short_second_raises (pixels_a pixels_b : list Pixel) :
  (length pixels_b < length pixels_a)%nat →
  GetDistance pixels_a pixels_b = Raise IndexError.
Proof.
  intros Hlen. unfold GetDistance.
  destruct (pixel_loop (seq 0 (length pixels_a)) pixels_a pixels_b 0)
    as [r|e] eqn:Hrun.
  - destruct (pixel_loop_reads _ _ _ _ _ Hrun (length pixels_b)) as [q Hq].
    + apply list_elem_of_In, in_seq. lia.
    + apply lookup_lt_Some in Hq. lia.
  - f_equal. eapply pixel_loop_error, Hrun.
Qed.

Lemma GetDistance_short_second_raises_witness :
  GetDistance rgba_a [] = Raise IndexError.
Proof. apply (GetDistance_short_second_raises rgba_a []). cbn. lia. Defined.

(** X4.  Samples of the second sequence beyond the length of the first are
    ignored: appending to the second sequence does not change the result. *)
Theorem GetDistance_ignores_surplus (pixels_a pixels_b extra : list Pixel) :
  (length pixels_a ≤ length pixels_b)%nat →
  GetDistance pixels_a (pixels_b ++ extra) = GetDistance pixels_a pixels_b.
Proof.
  intros Hlen. unfold GetDistance. apply pixel_loop_app.
  intros i Hi. apply list_elem_of_In, in_seq in Hi. lia.
Qed.

Lemma GetDistance_ignores_surplus_witness :
  GetDistance rgba_a (rgba_b ++ rgb_a) = GetDistance rgba_a rgba_b.
Proof. apply (GetDistance_ignores_surplus rgba_a rgba_b rgb_a). cbn. lia. Defined.

(** X5.  Whenever every pixel of the second sequence has the channels the
    loop reads, the distance is the sum, over the paired samples, of the
    absolute differences of the channels with index below the channel count
    of the first pixel minus three: none for three channels or fewer, the
    first for four, the first two for five. *)
Theorem GetDistance_closed_form (pixels_a pixels_b : list Pixel) :
  length pixels_a = length pixels_b →
  (∀ i p q, pixels_a !! i = Some p → pixels_b !! i = Some q →
            (length p - 3 ≤ length q)%nat) →
  GetDistance pixels_a pixels_b
  = Ok (leading_channels_distance pixels_a pixels_b).
Proof.
  intros Hlen Hch. apply GetDistance_leading_channels.
  apply Forall2_same_length_lookup_2; [exact Hlen | exact Hch].
Qed.

Lemma GetDistance_closed_form_witness :
  leading_channels_distance five_a five_b = 7 ∧
  GetDistance five_a five_b = Ok (leading_channels_distance five_a five_b).
Proof.
  split; [reflexivity|].
  apply (GetDistance_closed_form five_a five_b); [reflexivity|].
  intros [|i] p q Hp Hq; cbn in Hp, Hq; try discriminate.
  injection Hp as <-. injection Hq as <-. cbn. lia.
Defined.

(** X6.  On three borders of the same shape the distance obeys the triangle
    inequality. *)
Theorem GetDistance_triangle (pixels_a pixels_b pixels_c : list Pixel) :
  Forall2 (fun p q => length p = length q) pixels_a pixels_b →
  Forall2 (fun p q => length p = length q) pixels_b pixels_c →
  ∃ dab dbc dac,
    GetDistance pixels_a pixels_b = Ok dab ∧
    GetDistance pixels_b pixels_c = Ok dbc ∧
    GetDistance pixels_a pixels_c = Ok dac ∧
    dac ≤ dab + dbc.
Proof.
  intros Hab Hbc.
  pose proof (same_channels_trans _ _ Hab _ Hbc) as Hac.
  exists (leading_channels_distance pixels_a pixels_b),
         (leading_channels_distance pixels_b pixels_c),
         (leading_channels_distance pixels_a pixels_c).
  split_and!;
    try (apply GetDistance_leading_channels, same_channels_available;
         assumption).
  apply leading_channels_distance_triangle; assumption.
Qed.

Lemma GetDistance_triangle_witness :
  ∃ dab dbc dac,
    GetDistance rgba_a rgba_b = Ok dab ∧
    GetDistance rgba_b rgba_c = Ok dbc ∧
    GetDistance rgba_a rgba_c = Ok dac ∧
    dac ≤ dab + dbc.
Proof.
  apply (GetDistance_triangle rgba_a rgba_b rgba_c);
    repeat constructor.
Defined.

(** ** More on the matching pass *)

Section Pointwise.

(** A relation between a strip before and after, kept by every call. *)
Variable P : Strip → Strip → Prop.
Hypothesis P_refl : ∀ s, P s s.
Hypothesis P_trans : ∀ s1 s2 s3, P s1 s2 → P s2 s3 → P s1 s3.
Hypothesis P_keep : ∀ s edge d j, P s (keep_min s edge d j).

Lemma NeighborDistance_pointwise strips self neighbor edge ne strips' d :
  _NeighborDistance strips self neighbor edge ne = Ok (strips', d) →
  Forall2 P strips strips'.
Proof.
  intros Hcall.
  apply NeighborDistance_inv in Hcall as (s & nb & Hs & _ & _ & ->).
  apply Forall2_same_length_lookup_2; [symmetry; apply length_insert|].
  intros i x y Hx Hy. destruct (decide (self = i)) as [->|Hne].
  - rewrite list_lookup_insert_eq in Hy by (eapply lookup_lt_Some, Hs).
    assert (x = s) by congruence. subst x. injection Hy as <-. apply P_keep.
  - rewrite list_lookup_insert_ne in Hy by exact Hne.
    assert (x = y) by congruence. subst. apply P_refl.
Qed.

Lemma run_calls_pointwise calls : ∀ strips strips',
  run_calls calls strips = Ok strips' → Forall2 P strips strips'.
Proof.
  induction calls as [|[[[self nb] e] ne] calls IH]; intros strips strips'.
  - intros [= <-]. apply Forall2_same_length_lookup_2; [reflexivity|].
    intros i x y Hx Hy. assert (x = y) by congruence. subst. apply P_refl.
  - cbn [run_calls]. intros Hrun.
    apply result_bind_inv in Hrun as ([st d] & Hcall & Hrun).
    apply NeighborDistance_pointwise in Hcall. apply IH in Hrun.
    apply Forall2_same_length_lookup_2;
      [rewrite (Forall2_length _ _ _ Hcall); apply (Forall2_length _ _ _ Hrun)|].
    intros i x z Hx Hz.
    destruct (Forall2_lookup_l _ _ _ _ _ Hcall Hx) as (y & Hy & Hxy).
    destruct (Forall2_lookup_l _ _ _ _ _ Hrun Hy) as (z' & Hz' & Hyz).
    assert (z' = z) by congruence. subst. eapply P_trans; eassumption.
Qed.

End Pointwise.

(** X7.  Over any sequence of [_NeighborDistance] calls, so at every point
    of the matching pass and after it, the best distance a strip holds on
    either side never goes up. *)
Theorem best_distance_never_increases (calls : list Call)
    (strips strips' : list Strip) :
  run_calls calls strips = Ok strips' →
  length strips' = length strips ∧
  ∀ i s s' edge,
    strips !! i = Some s → strips' !! i = Some s' →
    get (_min_distances s') edge ≤ get (_min_distances s) edge.
Proof.
  intros Hrun.
  pose proof (run_calls_pointwise
                (fun s s' => ∀ edge, get (_min_distances s') edge
                                     ≤ get (_min_distances s) edge)) as H.
  specialize (H ltac:(intros s edge; lia)
                ltac:(intros s1 s2 s3 H1 H2 edge; cbv beta in H1, H2;
                      specialize (H1 edge); specialize (H2 edge); lia)).
  assert (Hkeep : ∀ s edge d j edge',
            get (_min_distances (keep_min s edge d j)) edge'
            ≤ get (_min_distances s) edge').
  { intros s edge d j edge'. rewrite keep_min_distance.
    destruct (decide (edge = edge')); lia. }
  specialize (H Hkeep calls strips strips' Hrun).
  split; [symmetry; apply (Forall2_length _ _ _ H)|].
  intros i s s' edge Hs Hs'.
  destruct (Forall2_lookup_l _ _ _ _ _ H Hs) as (s'' & Hs'' & Hle).
  assert (s'' = s') by congruence. subst. apply Hle.
Qed.

Lemma best_distance_never_increases_witness :
  length example_matched = length example_strips ∧
  ∀ i s s' edge,
    example_strips !! i = Some s → example_matched !! i = Some s' →
    get (_min_distances s') edge ≤ get (_min_distances s) edge.
Proof.
  apply (best_distance_never_increases
           (FindNeighbors_calls (length example_strips))).
  reflexivity.
Defined.

(** X8.  Over any sequence of [_NeighborDistance] calls the list of strips
    keeps its length and every strip keeps its position, its image and its
    two sampled borders: matching writes to the neighbour and distance
    fields only. *)
Theorem matching_keeps_strips (calls : list Call)
    (strips strips' : list Strip) :
  run_calls calls strips = Ok strips' →
  length strips' = length strips ∧
  ∀ i s s',
    strips !! i = Some s → strips' !! i = Some s' →
    _position s' = _position s ∧ _image s' = _image s ∧
    _border_pixels s' = _border_pixels s.
Proof.
  intros Hrun.
  pose proof (run_calls_pointwise
                (fun s s' => _position s' = _position s ∧
                             _image s' = _image s ∧
                             _border_pixels s' = _border_pixels s)) as H.
  specialize (H ltac:(intros s; cbv beta; auto)
                ltac:(intros s1 s2 s3 (? & ? & ?) (? & ? & ?);
                      split_and!; congruence)
                keep_min_static calls strips strips' Hrun).
  split; [symmetry; apply (Forall2_length _ _ _ H)|].
  intros i s s' Hs Hs'.
  destruct (Forall2_lookup_l _ _ _ _ _ H Hs) as (s'' & Hs'' & Hst).
  assert (s'' = s') by congruence. subst. exact Hst.
Qed.

Lemma matching_keeps_strips_witness :
  length example_matched = length example_strips ∧
  ∀ i s s',
    example_strips !! i = Some s → example_matched !! i = Some s' →
    _position s' = _position s ∧ _image s' = _image s ∧
    _border_pixels s' = _border_pixels s.
Proof.
  apply (matching_keeps_strips (FindNeighbors_calls (length example_strips))).
  reflexivity.
Defined.

Section Call_count.

Lemma inner_calls_length m i :
  length (inner_calls m i)
  = if decide (i < m)%nat then (2 * (m - 1))%nat else (2 * m)%nat.
Proof.
  induction m as [|m IH]; [reflexivity|].
  rewrite inner_calls_S, length_app, IH.
  destruct (decide (i = m)) as [->|Hne]; cbn [length];
    repeat case_decide; lia.
Qed.

Lemma outer_calls_length n m :
  (m ≤ n)%nat →
  length (flat_map (inner_calls n) (seq 0 m)) = (m * (2 * (n - 1)))%nat.
Proof.
  induction m as [|m IH]; intros Hm; [reflexivity|].
  rewrite seq_S, flat_map_app, length_app, IH by lia.
  cbn [flat_map]. rewrite app_nil_r, inner_calls_length.
  case_decide; lia.
Qed.

(** Counting the calls does not change the run; a run that returns has
    entered every call of the list, a run that raises at most as many. *)
Lemma run_calls_counting_spec calls : ∀ strips entered,
  fst (run_calls_counting calls strips entered) = run_calls calls strips ∧
  (snd (run_calls_counting calls strips entered)
   ≤ entered + length calls)%nat ∧
  (∀ strips', run_calls calls strips = Ok strips' →
              snd (run_calls_counting calls strips entered)
              = (entered + length calls)%nat).
Proof.
  induction calls as [|[[[self nb] e] ne] calls IH]; intros strips entered.
  - cbn. split_and!; [reflexivity | lia | intros; lia].
  - cbn [run_calls run_calls_counting length].
    destruct (_NeighborDistance strips self nb e ne) as [[st d]|err].
    + destruct (IH st (S entered)) as (Hrun & Hle & Hall).
      split_and!; [exact Hrun | lia |].
      intros strips' Hok. rewrite (Hall strips' Hok). lia.
    + cbn. split_and!; [reflexivity | lia | intros strips' H; discriminate H].
Qed.

End Call_count.

(** X9.  Run [FindNeighbors] on a list of [n] strips and count the calls of
    [_NeighborDistance] it enters.  Counting does not change the outcome.
    A pass that returns has made [2 * n * (n - 1)] calls, two for every
    ordered pair of different strips; a pass that raises has made at most
    that many, the raising one included. *)
Theorem FindNeighbors_call_count (strips : list Strip) :
  fst (run_calls_counting (FindNeighbors_calls (length strips)) strips 0)
  = FindNeighbors strips ∧
  (snd (run_calls_counting (FindNeighbors_calls (length strips)) strips 0)
   ≤ 2 * length strips * (length strips - 1))%nat ∧
  ((∃ strips', FindNeighbors strips = Ok strips') →
   snd (run_calls_counting (FindNeighbors_calls (length strips)) strips 0)
   = (2 * length strips * (length strips - 1))%nat).
Proof.
  assert (Hcalls : length (FindNeighbors_calls (length strips))
                   = (2 * length strips * (length strips - 1))%nat).
  { unfold FindNeighbors_calls. rewrite outer_calls_length by lia. lia. }
  destruct (run_calls_counting_spec (FindNeighbors_calls (length strips))
              strips 0) as (Hrun & Hle & Hall).
  rewrite Hcalls in Hle, Hall. cbn [Nat.add] in Hle, Hall.
  split_and!; [exact Hrun | exact Hle |].
  intros [strips' Hok]. apply (Hall strips'). exact Hok.
Qed.

Lemma FindNeighbors_call_count_witness :
  fst (run_calls_counting (FindNeighbors_calls (length example_strips))
         example_strips 0)
  = FindNeighbors example_strips ∧
  (snd (run_calls_counting (FindNeighbors_calls (length example_strips))
          example_strips 0)
   ≤ 2 * length example_strips * (length example_strips - 1))%nat ∧
  ((∃ strips', FindNeighbors example_strips = Ok strips') →
   snd (run_calls_counting (FindNeighbors_calls (length example_strips))
          example_strips 0)
   = (2 * length example_strips * (length example_strips - 1))%nat).
Proof. apply (FindNeighbors_call_count example_strips). Defined.

(** On the three strips of the example twelve calls are made; on two strips
    with borders of different lengths the third call raises and the fourth
    is never made. *)
Example counted_calls_examples :
  run_calls_counting (FindNeighbors_calls 3) example_strips 0
  = (Ok example_matched, 12%nat) ∧
  run_calls_counting (FindNeighbors_calls 2) ragged_strips 0
  = (Raise IndexError, 3%nat).
Proof. split; reflexivity. Qed.

Section Consistency.

Implicit Types (strips : list Strip) (s : Strip) (edge : Border).

Lemma FindNeighbors_calls_facing n :
  Forall facing_call (FindNeighbors_calls n).
Proof.
  apply Forall_forall. intros c Hc. apply list_elem_of_In in Hc.
  unfold FindNeighbors_calls in Hc. apply in_flat_map in Hc as (i & _ & Hc).
  unfold inner_calls in Hc. apply in_flat_map in Hc as (j & _ & Hc).
  destruct (decide (i = j)) as [|Hne]; [destruct Hc|].
  destruct Hc as [<-|[<-|[]]]; reflexivity.
Qed.

Lemma fresh_consistent strips i s : fresh s → consistent_match strips i s.
Proof. intros [Hn Hd] edge. rewrite Hn, Hd. destruct edge; reflexivity. Qed.

Lemma consistent_match_bound strips i s edge :
  consistent_match strips i s → get (_min_distances s) edge ≤ MAX.
Proof.
  intros H. specialize (H edge).
  destruct (get (_neighbors s) edge); [lia | lia].
Qed.

Lemma keep_min_consistent strips i s edge d j :
  candidate_score strips i j edge = Ok d →
  consistent_match strips i s →
  consistent_match strips i (keep_min s edge d j).
Proof.
  intros Hd Hs edge'.
  rewrite keep_min_neighbor, keep_min_distance.
  destruct (decide (edge = edge')) as [<-|]; [|apply Hs].
  pose proof (consistent_match_bound strips i s edge Hs).
  destruct (Z.ltb_spec d (get (_min_distances s) edge)).
  - rewrite Z.min_l by lia. split; [exact Hd | lia].
  - rewrite Z.min_r by lia. apply Hs.
Qed.

Lemma run_calls_consistent strips0 calls : ∀ strips strips',
  Forall facing_call calls →
  same_static strips strips0 →
  (∀ i s, strips !! i = Some s → consistent_match strips0 i s) →
  run_calls calls strips = Ok strips' →
  ∀ i s, strips' !! i = Some s → consistent_match strips0 i s.
Proof.
  induction calls as [|[[[self nb] e] ne] calls IH];
    intros strips strips' Hf Hst Hinv.
  - intros [= <-]. exact Hinv.
  - cbn [run_calls]. intros Hrun.
    apply result_bind_inv in Hrun as ([st d] & Hcall & Hrun).
    inversion Hf as [|? ? Hc Hf']; subst. unfold facing_call in Hc.
    cbn in Hc. subst ne.
    apply NeighborDistance_inv in Hcall as (s & nb' & Hs & Hnb & Hd & ->).
    assert (Hscore : candidate_score strips0 self nb e = Ok d).
    { rewrite <- (candidate_score_static _ _ _ _ _ Hst).
      unfold candidate_score. rewrite Hs, Hnb. exact Hd. }
    destruct (Forall2_lookup_l _ _ _ _ _ Hst Hs) as (s0 & Hs0 & H1 & H2 & H3).
    apply (IH (<[self := keep_min s e d nb]> strips) strips' Hf');
      [| |exact Hrun].
    + apply (same_static_insert _ _ _ _ s0); auto;
        destruct (keep_min_static s e d nb) as (? & ? & ?); congruence.
    + intros i s' Hs'. destruct (decide (self = i)) as [->|Hne].
      * rewrite list_lookup_insert_eq in Hs' by (eapply lookup_lt_Some, Hs).
        injection Hs' as <-. apply keep_min_consistent; [exact Hscore|].
        apply (Hinv i s Hs).
      * rewrite list_lookup_insert_ne in Hs' by exact Hne.
        apply (Hinv i s' Hs').
Qed.

End Consistency.

(** X10.  Start the matching pass from fresh strips and stop it after any
    number of its calls, or let it finish.  On every side of every strip the
    stored pair is consistent: a stored neighbour is a strip whose score on
    that side is exactly the stored distance, and this distance is below the
    sentinel; where no neighbour is stored the distance is still the
    sentinel [MAX]. *)
Theorem stored_distance_is_neighbor_score (strips strips' : list Strip)
    (done : list Call) :
  Forall fresh strips →
  done `prefix_of` FindNeighbors_calls (length strips) →
  run_calls done strips = Ok strips' →
  ∀ i s edge,
    strips' !! i = Some s →
    match get (_neighbors s) edge with
    | Some j =>
        candidate_score strips i j edge = Ok (get (_min_distances s) edge) ∧
        get (_min_distances s) edge < MAX
    | None => get (_min_distances s) edge = MAX
    end.
Proof.
  intros Hfresh [rest Hcalls] Hrun i s edge Hs.
  apply (run_calls_consistent strips done strips strips'); try assumption.
  - pose proof (FindNeighbors_calls_facing (length strips)) as Hf.
    rewrite Hcalls in Hf. apply Forall_app in Hf. apply Hf.
  - apply same_static_refl.
  - intros k sk Hk. apply fresh_consistent.
    eapply Forall_lookup_1; eassumption.
Qed.

Lemma stored_distance_is_neighbor_score_witness :
  run_calls (FindNeighbors_calls (length example_strips)) example_strips
  = Ok example_matched ∧
  ∀ i s edge,
    example_matched !! i = Some s →
    match get (_neighbors s) edge with
    | Some j =>
        candidate_score example_strips i j edge
        = Ok (get (_min_distances s) edge) ∧
        get (_min_distances s) edge < MAX
    | None => get (_min_distances s) edge = MAX
    end.
Proof.
  split; [reflexivity|].
  apply (stored_distance_is_neighbor_score example_strips example_matched
           (FindNeighbors_calls (length example_strips)));
    [repeat constructor | exists []; symmetry; apply app_nil_r | reflexivity].
Defined.

(** ** More on edge detection and chain assembly *)

(** X11.  [DetectLeftEdge] needs matched strips: when the first strip of the
    list lacks its right or its left neighbour, as every strip does before
    [FindNeighbors] has run, it raises [AttributeError]. *)
Theorem DetectLeftEdge_unmatched_raises (strips : list Strip) (s : Strip) :
  refs_valid strips →
  strips !! 0%nat = Some s →
  GetRightNeighbor s = None ∨ GetLeftNeighbor s = None →
  DetectLeftEdge strips = Raise AttributeError.
Proof.
  intros Hv Hs Hnone. unfold DetectLeftEdge.
  destruct strips as [|s' rest]; [discriminate|].
  cbn [length seq DetectLeftEdge_loop].
  rewrite (result_bind_Ok _ _ _ (deref_Some _ _ _ Hs)).
  destruct (GetRightNeighbor s) as [jr|] eqn:Hr; [|reflexivity].
  destruct (lookup_lt_is_Some_2 (s' :: rest) jr) as [nr Hnr];
    [apply (Hv 0%nat s R jr Hs Hr)|].
  rewrite (result_bind_Ok _ _ _ (deref_Some _ _ _ Hnr)).
  destruct Hnone as [Hnone|Hnone]; [discriminate|].
  rewrite Hnone. reflexivity.
Qed.

Lemma DetectLeftEdge_unmatched_raises_witness :
  DetectLeftEdge example_strips = Raise AttributeError.
Proof.
  apply (DetectLeftEdge_unmatched_raises example_strips
           (mkStrip 0 strip_y (mkDict None None) (mkDict MAX MAX)
                    (mkDict [red 12; red 13] [red 50; red 50])));
    [apply fresh_refs_valid; repeat constructor | reflexivity
    | left; reflexivity].
Defined.

(** At or beyond the width bound [OrderStrips] returns the raster as it is
    and does not touch the strip. *)
Lemma OrderStrips_at_bound_returns (cfg : Config) (room : nat)
    (strips : list Strip) (image : Canvas) (strip : option nat) (count : Z) :
  IMAGE_WIDTH cfg ≤ count * STRIP_WIDTH cfg →
  OrderStrips cfg room strips image strip count = Ok image.
Proof. intros H. unfold OrderStrips. apply OrderStrips_rec_stop, H. Qed.

(** X12.  Below the width bound [OrderStrips] needs a strip: handed [None],
    which is what [DetectLeftEdge] returns when no strip offends, it raises
    [AttributeError], whatever room the interpreter has left. *)
Theorem OrderStrips_without_strip_raises (cfg : Config) (room : nat)
    (strips : list Strip) (image : Canvas) (count : Z) :
  count * STRIP_WIDTH cfg < IMAGE_WIDTH cfg →
  OrderStrips cfg room strips image None count = Raise AttributeError.
Proof.
  intros H. unfold OrderStrips.
  destruct room as [|room]; cbn [OrderStrips_rec];
    (destruct (Z.leb_spec (IMAGE_WIDTH cfg) (count * STRIP_WIDTH cfg));
     [lia | reflexivity]).
Qed.

Lemma OrderStrips_without_strip_raises_witness :
  OrderStrips example_config example_room pair_matched (new_canvas (6, 2))
              None 0
  = Raise AttributeError.
Proof.
  apply (OrderStrips_without_strip_raises example_config example_room
           pair_matched (new_canvas (6, 2)) 0).
  reflexivity.
Defined.

Section Two_strips.

Implicit Types (strips : list Strip) (s : Strip) (edge : Border).

Lemma pair_neighbors strips st :
  length strips = 2%nat →
  (∀ i j edge, (i < 2)%nat → (j < 2)%nat → i ≠ j →
     ∃ d, candidate_score strips i j edge = Ok d ∧ d < MAX) →
  (∀ i s, st !! i = Some s → strip_best_upto strips i (length strips) s) →
  length st = 2%nat →
  ∀ i s edge, st !! i = Some s →
              get (_neighbors s) edge = Some (1 - i)%nat.
Proof.
  intros Hlen Hscores Hbest Hst i s edge Hs.
  assert (Hi : (i < 2)%nat) by (rewrite <- Hst; eapply lookup_lt_Some, Hs).
  destruct (Hscores i (1 - i)%nat edge) as (d & Hd & Hlt); [lia | lia | lia |].
  destruct (best_upto_assigned strips i edge _ _ (1 - i)%nat d
              (Hbest i s Hs edge)) as (j & -> & Hji & Hj & _);
    [lia | lia | exact Hd | exact Hlt |].
  f_equal. lia.
Qed.

End Two_strips.

(** X13.  With exactly two strips the reconstruction cannot succeed.  From
    two fresh strips whose scores are below the sentinel, [FindNeighbors]
    makes each strip the neighbour of the other on both sides; no strip then
    breaks reciprocity, [DetectLeftEdge] returns [None], and [OrderStrips]
    started with that [None] raises [AttributeError] for every positive
    image width and whatever room the interpreter has left. *)
Theorem two_strips_never_reassemble (strips : list Strip) :
  length strips = 2%nat →
  Forall fresh strips →
  (∀ i j edge, (i < 2)%nat → (j < 2)%nat → i ≠ j →
     ∃ d, candidate_score strips i j edge = Ok d ∧ d < MAX) →
  ∃ strips',
    FindNeighbors strips = Ok strips' ∧
    (∀ i s edge, strips' !! i = Some s →
                 get (_neighbors s) edge = Some (1 - i)%nat) ∧
    DetectLeftEdge strips' = Ok None ∧
    ∀ cfg room image,
      0 < IMAGE_WIDTH cfg →
      OrderStrips cfg room strips' image None 0 = Raise AttributeError.
Proof.
  intros Hlen Hfresh Hscores.
  assert (Hdef : scores_defined strips).
  { intros i j edge Hi Hj Hne. rewrite Hlen in Hi, Hj.
    destruct (Hscores i j edge Hi Hj Hne) as (d & Hd & _). eauto. }
  destruct (FindNeighbors_best strips Hfresh Hdef) as (st & Hrun & Hst & Hbest).
  assert (Hlst : length st = 2%nat)
    by (rewrite (Forall2_length _ _ _ Hst); exact Hlen).
  pose proof (pair_neighbors strips st Hlen Hscores Hbest Hlst) as Hnb.
  exists st. split_and!; [exact Hrun | exact Hnb | |].
  - assert (Hm : matched st) by (intros i s edge Hs; rewrite (Hnb i s edge Hs); eauto).
    assert (Hv : refs_valid st).
    { intros i s edge j Hs Hj. rewrite (Hnb i s edge Hs) in Hj.
      injection Hj as <-. lia. }
    assert (Hnot : ∀ k, ¬ broken_reciprocity st k).
    { intros k (s & ln & left & Hs & Hln & Hleft & Hbroken).
      unfold GetLeftNeighbor in Hln. rewrite (Hnb k s L Hs) in Hln.
      injection Hln as <-. apply Hbroken. unfold GetRightNeighbor.
      rewrite (Hnb _ left R Hleft). f_equal.
      apply lookup_lt_Some in Hs. lia. }
    pose proof (DetectLeftEdge_loop_seq st Hm Hv (length st) 0 ltac:(lia))
      as Hloop.
    unfold DetectLeftEdge.
    destruct (DetectLeftEdge_loop (seq 0 (length st)) st) as [[i|]|];
      [|reflexivity|destruct Hloop].
    destruct Hloop as (_ & Hb & _). destruct (Hnot i Hb).
  - intros cfg room image Hw. unfold OrderStrips.
    destruct room as [|room]; cbn [OrderStrips_rec];
      (destruct (Z.leb_spec (IMAGE_WIDTH cfg) (0 * STRIP_WIDTH cfg));
       [lia | reflexivity]).
Qed.

Lemma pair_scores_below_sentinel :
  ∀ i j edge, (i < 2)%nat → (j < 2)%nat → i ≠ j →
    ∃ d, candidate_score pair_strips i j edge = Ok d ∧ d < MAX.
Proof.
  intros i j edge Hi Hj Hne.
  destruct i as [|[|i]]; [| |lia]; (destruct j as [|[|j]]; [| |lia]);
    try congruence; destruct edge;
    (eexists; split; [reflexivity | reflexivity]).
Defined.

Lemma two_strips_never_reassemble_witness :
  ∃ strips',
    FindNeighbors pair_strips = Ok strips' ∧
    (∀ i s edge, strips' !! i = Some s →
                 get (_neighbors s) edge = Some (1 - i)%nat) ∧
    DetectLeftEdge strips' = Ok None ∧
    ∀ cfg room image,
      0 < IMAGE_WIDTH cfg →
      OrderStrips cfg room strips' image None 0 = Raise AttributeError.
Proof.
  apply (two_strips_never_reassemble pair_strips);
    [reflexivity | repeat constructor | exact pair_scores_below_sentinel].
Defined.

Section Cycle.

Implicit Types (strips : list Strip).

(** Following right neighbours between two strips that name each other. *)
Lemma nth_right_two_cycle strips e e' se se' :
  strips !! e = Some se → strips !! e' = Some se' →
  GetRightNeighbor se = Some e' → GetRightNeighbor se' = Some e →
  ∀ k, nth_right strips (Some e) k = Some (if Nat.even k then e else e') ∧
       nth_right strips (Some e') k = Some (if Nat.even k then e' else e).
Proof.
  intros He He' Hr Hr'. induction k as [|k [IH1 IH2]]; [split; reflexivity|].
  cbn [nth_right]. rewrite He, He', Hr, Hr', IH1, IH2.
  rewrite Nat.even_succ, <- Nat.negb_even.
  destruct (Nat.even k); split; reflexivity.
Qed.

End Cycle.

(** X14.  [OrderStrips] does not notice a cycle.  When the start strip and
    its right neighbour name each other as right neighbours, and the
    interpreter leaves room for as many nested activations as there are
    slots, the slots are filled with these two strips in turn up to the
    width bound, however many strips the store holds: the others are left
    out without an error. *)
Theorem OrderStrips_two_cycle_alternates (cfg : Config) (room : nat)
    (strips : list Strip) (e e' : nat) (se se' : Strip) (sz : Z * Z) :
  0 < STRIP_WIDTH cfg →
  (STRIP_WIDTH cfg | IMAGE_WIDTH cfg) →
  0 ≤ IMAGE_WIDTH cfg →
  (Z.to_nat (IMAGE_WIDTH cfg / STRIP_WIDTH cfg) ≤ room)%nat →
  matched strips → refs_valid strips →
  strips !! e = Some se → strips !! e' = Some se' →
  GetRightNeighbor se = Some e' → GetRightNeighbor se' = Some e →
  ∃ image',
    OrderStrips cfg room strips (new_canvas sz) (Some e) 0 = Ok image' ∧
    length (pastes image')
    = Z.to_nat (IMAGE_WIDTH cfg / STRIP_WIDTH cfg) ∧
    ∀ k : nat, (k < length (pastes image'))%nat →
      pastes image' !! k
      = Some (GetImage (if Nat.even k then se else se'),
              (Z.of_nat k * STRIP_WIDTH cfg, 0)).
Proof.
  intros Hsw [q Hq] Hpos Hroom Hm Hv He He' Hr Hr'.
  set (n := Z.to_nat (IMAGE_WIDTH cfg / STRIP_WIDTH cfg)) in *.
  assert (Hdiv : IMAGE_WIDTH cfg / STRIP_WIDTH cfg = q)
    by (rewrite Hq; apply Z.div_mul; lia).
  assert (Hwidth : IMAGE_WIDTH cfg = Z.of_nat n * STRIP_WIDTH cfg)
    by (unfold n; rewrite Hdiv, Hq; nia).
  destruct (OrderStrips_rec_slots cfg strips n Hsw Hwidth Hm Hv n 0
              room (new_canvas sz) e)
    as (tail & Hrun & Hlen & Htail);
    [lia | exact Hroom | eapply lookup_lt_Some, He |].
  cbn [new_canvas canvas_size pastes app] in Hrun.
  exists (mkCanvas sz tail). cbn [pastes].
  split_and!; [exact Hrun | exact Hlen |].
  intros k Hk. rewrite Hlen in Hk.
  destruct (Htail k Hk) as (i & s & Hi & Hs & Hp).
  destruct (nth_right_two_cycle strips e e' se se' He He' Hr Hr' k)
    as [Hchain _].
  change (0 + k)%nat with k in Hp.
  rewrite Hchain in Hi. injection Hi as <-. rewrite Hp. revert Hs.
  destruct (Nat.even k); intros Hs; congruence.
Qed.

Lemma pair_matched_matched : matched pair_matched.
Proof.
  intros i s edge Hs.
  destruct i as [|[|i]]; cbn in Hs; try discriminate Hs;
    injection Hs as <-; destruct edge; eexists; reflexivity.
Defined.

Lemma pair_matched_refs_valid : refs_valid pair_matched.
Proof.
  intros i s edge j Hs Hj.
  destruct i as [|[|i]]; cbn in Hs; try discriminate Hs;
    injection Hs as <-; destruct edge; cbn in Hj; injection Hj as <-;
    cbn; lia.
Defined.

Lemma OrderStrips_two_cycle_alternates_witness :
  ∃ image',
    OrderStrips example_config example_room pair_matched (new_canvas (6, 2))
                (Some 0%nat) 0
    = Ok image' ∧
    length (pastes image')
    = Z.to_nat (IMAGE_WIDTH example_config / STRIP_WIDTH example_config) ∧
    ∀ k : nat, (k < length (pastes image'))%nat →
      pastes image' !! k
      = Some (GetImage (if Nat.even k
                        then mkStrip 0 strip_y
                               (mkDict (Some 1%nat) (Some 1%nat))
                               (mkDict 175 4)
                               (mkDict [red 12; red 13] [red 50; red 50])
                        else mkStrip 1 strip_z
                               (mkDict (Some 0%nat) (Some 0%nat))
                               (mkDict 4 175)
                               (mkDict [red 52; red 52] [red 100; red 100])),
              (Z.of_nat k * STRIP_WIDTH example_config, 0)).
Proof.
  apply (OrderStrips_two_cycle_alternates example_config example_room
           pair_matched 0 1);
    [reflexivity | exists 3; reflexivity | cbn; lia | vm_compute; lia
    | exact pair_matched_matched | exact pair_matched_refs_valid
    | reflexivity | reflexivity | reflexivity | reflexivity].
Defined.

(** ** More on border sampling and strip extraction *)

(** X15.  [_LoadBorder] does not check the image against the constants:
    with a positive image height, [getdata()] too short to hold the first
    sample of the edge column makes it raise [IndexError]. *)
Theorem LoadBorder_short_data_raises (cfg : Config) (self : Strip)
    (border : Border) :
  0 < IMAGE_HEIGHT cfg → 0 < STRIP_WIDTH cfg →
  (length (_image_data self) ≤ Z.to_nat (BORDERS cfg border))%nat →
  _LoadBorder cfg self border = Raise IndexError.
Proof.
  intros Hh Hsw Hshort. unfold _LoadBorder.
  destruct (Z.to_nat (IMAGE_HEIGHT cfg)) as [|fuel] eqn:Hfuel; [lia|].
  cbn [LoadBorder_loop].
  destruct (Z.ltb_spec 0 (IMAGE_HEIGHT cfg)); [|lia].
  pose proof (BORDERS_inside cfg border Hsw) as Hx.
  unfold _GetPixelValue.
  replace (0 * STRIP_WIDTH cfg + BORDERS cfg border)
    with (BORDERS cfg border) by lia.
  rewrite index_data_nonneg by lia.
  rewrite (lookup_ge_None_2 _ _ Hshort). reflexivity.
Qed.

Lemma LoadBorder_short_data_raises_witness :
  _LoadBorder example_config (blank_strip (mkImage 4 (2, 2) [red 1]) 0) R
  = Raise IndexError.
Proof.
  apply (LoadBorder_short_data_raises example_config
           (blank_strip (mkImage 4 (2, 2) [red 1]) 0) R);
    [reflexivity | reflexivity | cbn; lia].
Defined.

(** X16.  With a stride of zero and a positive image height the loop of
    [_LoadBorder] reads row 0 again and again and never leaves: whatever
    the number of rounds allowed, it has not returned when they are used
    up. *)
Theorem LoadBorder_zero_stride_never_returns (cfg : Config) (self : Strip)
    (border : Border) (x : Z) :
  SAMPLING_DISTANCE cfg = 0 →
  0 < IMAGE_HEIGHT cfg →
  0 ≤ x →
  (Z.to_nat x < length (_image_data self))%nat →
  (∀ fuel sample_count reads,
     LoadBorder_loop cfg fuel border x 0 sample_count self reads
     = Raise NonTermination) ∧
  (x = BORDERS cfg border →
   _LoadBorder cfg self border = Raise NonTermination).
Proof.
  intros Hsd Hh Hx Hin.
  assert (Hloop : ∀ fuel self' sample_count reads,
            _image_data self' = _image_data self →
            LoadBorder_loop cfg fuel border x 0 sample_count self' reads
            = Raise NonTermination).
  { induction fuel as [|fuel IH]; intros self' k reads Hdata;
      cbn [LoadBorder_loop];
      (destruct (Z.ltb_spec 0 (IMAGE_HEIGHT cfg)); [|lia]);
      [rewrite Hsd; reflexivity|].
    destruct (lookup_lt_is_Some_2 _ _ Hin) as [p Hp].
    assert (Hread : _GetPixelValue cfg self' x 0 = Ok p).
    { unfold _GetPixelValue. rewrite Hdata.
      replace (0 * STRIP_WIDTH cfg + x) with x by lia.
      rewrite index_data_nonneg by lia. rewrite Hp. reflexivity. }
    rewrite (result_bind_Ok _ _ _ Hread). cbv zeta.
    rewrite Hsd, Z.mul_0_r. apply IH. exact Hdata. }
  split.
  - intros fuel k reads. apply Hloop. reflexivity.
  - intros ->. unfold _LoadBorder. apply Hloop. reflexivity.
Qed.

Lemma LoadBorder_zero_stride_never_returns_witness :
  (∀ fuel sample_count reads,
     LoadBorder_loop zero_stride_config fuel L 0 0 sample_count
                     (blank_strip strip_y 0) reads
     = Raise NonTermination) ∧
  (0 = BORDERS zero_stride_config L →
   _LoadBorder zero_stride_config (blank_strip strip_y 0) L
   = Raise NonTermination).
Proof.
  apply (LoadBorder_zero_stride_never_returns zero_stride_config
           (blank_strip strip_y 0) L 0);
    [reflexivity | reflexivity | lia | cbn; lia].
Defined.

Section Extraction_more.

Variable cfg : Config.

(** Looking up row [i], column [j] in rows of equal length laid end to
    end. *)
Lemma lookup_flat_map_rows {A B} (f : A → list B) (n : nat) :
  (∀ x, length (f x) = n) →
  ∀ (xs : list A) (i j : nat) (x : A),
    xs !! i = Some x → (j < n)%nat →
    flat_map f xs !! (i * n + j)%nat = f x !! j.
Proof.
  intros Hf. induction xs as [|y xs IH]; intros i j x Hx Hj;
    [discriminate|].
  cbn [flat_map]. destruct i as [|i].
  - injection Hx as <-. rewrite lookup_app_l by (rewrite Hf; lia).
    reflexivity.
  - rewrite lookup_app_r by (rewrite Hf; lia). rewrite Hf.
    replace (S i * n + j - n)%nat with (i * n + j)%nat by lia.
    apply IH; assumption.
Qed.

(** A pixel inside a crop is the pixel of the image at the shifted place,
    or zeros where the box leaves the image. *)
Lemma pixel_at_crop im x1 y1 w h cx cy :
  0 ≤ cx < w → 0 ≤ cy < h →
  pixel_at (crop im (x1, y1, x1 + w, y1 + h)) cx cy
  = Some (default (replicate (bands im) 0) (pixel_at im (x1 + cx) (y1 + cy))).
Proof.
  intros Hx Hy. unfold pixel_at at 1, crop. cbn [size getdata].
  replace (x1 + w - x1) with w by lia. replace (y1 + h - y1) with h by lia.
  destruct (Z.leb_spec 0 cx); [|lia]. destruct (Z.ltb_spec cx w); [|lia].
  destruct (Z.leb_spec 0 cy); [|lia]. destruct (Z.ltb_spec cy h); [|lia].
  cbn [andb].
  replace (Z.to_nat (cy * w + cx))
    with (Z.to_nat cy * Z.to_nat w + Z.to_nat cx)%nat by nia.
  rewrite (lookup_flat_map_rows _ (Z.to_nat w)) with (x := Z.to_nat cy);
    [| intros; rewrite length_map, length_seq; reflexivity
     | apply lookup_seq_lt; lia | lia].
  rewrite list_lookup_fmap, lookup_seq_lt by lia. cbn.
  rewrite !Z2Nat.id by lia. reflexivity.
Qed.

End Extraction_more.



(** A strip width that does not divide the image width: seven columns in
    strips of two make four strips, the last one reaching past the image
    width. *)
Example GetStrips_ragged_width :
  ∃ strips, GetStrips (mkConfig 2 7 2 1) example_image = Ok strips ∧
            length strips = 4%nat ∧
            Z.to_nat (7 / 2) = 3%nat.
Proof. eexists. split_and!; reflexivity. Qed.

(** X18.  The borders of the strip at index [k] are columns of the image
    handed to [GetStrips]: the left border holds the pixels of image column
    [k * STRIP_WIDTH], the right border those of column
    [k * STRIP_WIDTH + STRIP_WIDTH - 1], at the rows [0],
    [SAMPLING_DISTANCE], [2 * SAMPLING_DISTANCE], ... below [IMAGE_HEIGHT],
    with zeros where that place lies outside the image. *)
Theorem GetStrips_borders_are_image_columns (cfg : Config) (im : PilImage) :
  0 < SAMPLING_DISTANCE cfg → 0 < STRIP_WIDTH cfg →
  ∃ strips,
    GetStrips cfg im = Ok strips ∧
    ∀ k s border, strips !! k = Some s →
      GetBorderPixels s border
      = map (fun y => default (replicate (bands im) 0)
                        (pixel_at im (Z.of_nat k * STRIP_WIDTH cfg
                                      + BORDERS cfg border) y))
            (sample_rows cfg (sample_count cfg)).
Proof.
  intros Hsd Hsw.
  destruct (GetStrips_extracted cfg im Hsd Hsw) as (new & Hrun & Hnew).
  exists new. split; [exact Hrun|].
  intros k s border Hs.
  destruct (Forall2_lookup_r _ _ _ _ _ Hnew Hs) as (k' & Hk' & Hext).
  apply lookup_seq in Hk' as [-> _]. cbn [Nat.add] in Hext.
  destruct Hext as (_ & _ & Hi & Hb). destruct (Hb border) as [_ Hrows].
  rewrite Hi in Hrows.
  assert (Hin : ∀ y, y ∈ sample_rows cfg (sample_count cfg) →
                     0 ≤ y < IMAGE_HEIGHT cfg)
    by (intros y; apply sample_rows_inside, Hsd).
  revert Hrows Hin.
  generalize (sample_rows cfg (sample_count cfg)) (GetBorderPixels s border).
  induction 1 as [|y p rows samples Hp _ IH]; intros Hin; [reflexivity|].
  cbn [map]. f_equal.
  - replace (IMAGE_HEIGHT cfg) with (0 + IMAGE_HEIGHT cfg) in Hp by lia.
    rewrite pixel_at_crop in Hp;
      [| apply BORDERS_inside, Hsw | apply Hin; left].
    injection Hp as <-. reflexivity.
  - apply IH. intros y' Hy'. apply Hin. right. exact Hy'.
Qed.

Lemma GetStrips_borders_are_image_columns_witness :
  ∃ strips,
    GetStrips example_config example_image = Ok strips ∧
    ∀ k s border, strips !! k = Some s →
      GetBorderPixels s border
      = map (fun y => default (replicate (bands example_image) 0)
                        (pixel_at example_image
                           (Z.of_nat k * STRIP_WIDTH example_config
                            + BORDERS example_config border) y))
            (sample_rows example_config (sample_count example_config)).
Proof.
  apply (GetStrips_borders_are_image_columns example_config example_image);
    reflexivity.
Defined.



(** ** The pipeline as a whole *)

Section Pipeline.

Variable cfg : Config.

(** Loading a border leaves everything but that border as it was. *)
Lemma LoadBorder_loop_keeps border x fuel :
  ∀ y sample_count self reads self' reads',
    LoadBorder_loop cfg fuel border x y sample_count self reads
    = Ok (self', reads') →
    _position self' = _position self ∧ _image self' = _image self ∧
    _neighbors self' = _neighbors self ∧
    _min_distances self' = _min_distances self.
Proof.
  induction fuel as [|fuel IH]; intros y k self reads self' reads';
    cbn [LoadBorder_loop]; destruct (y <? IMAGE_HEIGHT cfg);
    try discriminate; try (intros [= <- <-]; auto).
  intros H. apply result_bind_inv in H as (p & _ & H).
  apply IH in H. exact H.
Qed.

Lemma Strip_init_keeps image position s :
  Strip_init cfg image position = Ok s →
  _position s = position ∧ _image s = image ∧ fresh s.
Proof.
  unfold Strip_init, _LoadBorderPixels, _LoadBorder. intros H.
  apply result_bind_inv in H as ([s1 r1] & H1 & H).
  apply result_bind_inv in H as ([s2 r2] & H2 & H).
  injection H as <-.
  apply LoadBorder_loop_keeps in H1 as (Hp1 & Hi1 & Hn1 & Hd1).
  apply LoadBorder_loop_keeps in H2 as (Hp2 & Hi2 & Hn2 & Hd2).
  cbn in Hp1, Hi1, Hn1, Hd1.
  split_and!; [congruence | congruence |].
  split; congruence.
Qed.

(** A loop of [GetStrips] that returns has appended strips numbered from
    its counter on, each cut below the image width. *)
Lemma GetStrips_loop_returned im :
  0 < STRIP_WIDTH cfg →
  ∀ fuel (c : nat) strips strips',
    GetStrips_loop cfg im fuel (Z.of_nat c) strips = Ok strips' →
    ∃ new, strips' = strips ++ new ∧
           Forall2 (fun k s =>
                      Z.of_nat k * STRIP_WIDTH cfg < IMAGE_WIDTH cfg ∧
                      fresh s ∧ _position s = Z.of_nat k ∧
                      _image s
                      = crop im (Z.of_nat k * STRIP_WIDTH cfg, 0,
                                 Z.of_nat k * STRIP_WIDTH cfg
                                 + STRIP_WIDTH cfg,
                                 IMAGE_HEIGHT cfg))
                   (seq c (length new)) new.
Proof.
  intros Hsw.
  induction fuel as [|fuel IH]; intros c strips strips';
    cbn [GetStrips_loop]; unfold below_quotient;
    destruct (Z.ltb_spec (Z.of_nat c * STRIP_WIDTH cfg) (IMAGE_WIDTH cfg))
      as [Hlt|Hge];
    try discriminate;
    try (intros [= <-]; exists []; rewrite app_nil_r;
         split; [reflexivity | constructor]).
  intros Hrun. apply result_bind_inv in Hrun as (s & Hs & Hrun).
  replace (Z.of_nat c + 1) with (Z.of_nat (S c)) in Hrun by lia.
  apply IH in Hrun as (new & -> & Hnew).
  exists (s :: new). split; [rewrite <- (assoc_L (++)); reflexivity|].
  cbn [length seq]. constructor; [|exact Hnew].
  apply Strip_init_keeps in Hs as (Hp & Hi & Hf).
  split_and!; assumption.
Qed.

Lemma deref_inv strips ref s :
  deref strips ref = Ok s → ∃ i, ref = Some i ∧ strips !! i = Some s.
Proof.
  unfold deref. destruct ref as [i|]; [|discriminate].
  destruct (strips !! i) as [s'|] eqn:Hs; [|discriminate].
  intros [= <-]. eauto.
Qed.

(** A recursion of [OrderStrips] that returns has filled every slot left
    before the width bound, each with the image of a strip of the store. *)
Lemma OrderStrips_rec_returned strips (n : nat) :
  0 < STRIP_WIDTH cfg →
  IMAGE_WIDTH cfg = Z.of_nat n * STRIP_WIDTH cfg →
  ∀ fuel (c : nat) image strip image',
    (c ≤ n)%nat →
    OrderStrips_rec cfg fuel strips image strip (Z.of_nat c) = Ok image' →
    ∃ tail,
      image' = mkCanvas (canvas_size image) (pastes image ++ tail) ∧
      length tail = (n - c)%nat ∧
      ∀ k p, tail !! k = Some p →
        ∃ i s, strips !! i = Some s ∧
               p = (GetImage s, (Z.of_nat (c + k) * STRIP_WIDTH cfg, 0)).
Proof.
  intros Hsw Hiw.
  assert (Hstop : ∀ (c : nat) image image',
            (c ≤ n)%nat →
            IMAGE_WIDTH cfg ≤ Z.of_nat c * STRIP_WIDTH cfg →
            Ok image = Ok image' →
            ∃ tail : list (PilImage * (Z * Z)),
              image' = mkCanvas (canvas_size image) (pastes image ++ tail) ∧
              length tail = (n - c)%nat ∧
              ∀ k p, tail !! k = Some p →
                ∃ i s, strips !! i = Some s ∧
                       p = (GetImage s,
                            (Z.of_nat (c + k) * STRIP_WIDTH cfg, 0))).
  { intros c image image' Hc Hle [= <-]. exists [].
    rewrite app_nil_r. split_and!.
    - destruct image; reflexivity.
    - cbn. nia.
    - intros k p Hk. discriminate Hk. }
  induction fuel as [|fuel IH]; intros c image strip image' Hc;
    cbn [OrderStrips_rec];
    destruct (Z.leb_spec (IMAGE_WIDTH cfg) (Z.of_nat c * STRIP_WIDTH cfg))
      as [Hle|Hlt];
    try (apply Hstop; assumption);
    intros Hrun; apply result_bind_inv in Hrun as (s & Hs & Hrun);
    [discriminate Hrun|].
  apply deref_inv in Hs as (i & -> & Hi).
  replace (Z.of_nat c + 1) with (Z.of_nat (S c)) in Hrun by lia.
  apply IH in Hrun as (tail & -> & Hlen & Htail); [|nia].
  exists ((GetImage s, (Z.of_nat c * STRIP_WIDTH cfg, 0)) :: tail).
  cbn [paste canvas_size pastes]. split_and!.
  - rewrite <- (assoc_L (++)). reflexivity.
  - cbn [length]. rewrite Hlen. nia.
  - intros [|k] p Hp.
    + injection Hp as <-. exists i, s. split; [exact Hi|].
      do 3 f_equal. lia.
    + destruct (Htail k p Hp) as (i' & s' & Hi' & ->).
      exists i', s'. split; [exact Hi'|]. do 3 f_equal. lia.
Qed.

End Pipeline.

(** X20.  Whenever [main] returns a raster, for a positive strip width that
    divides the image width and whatever room the interpreter has, the
    raster has the size of the input image and
    holds exactly [IMAGE_WIDTH / STRIP_WIDTH] pastes; the paste in slot [k]
    lies at column [k * STRIP_WIDTH] and is one of the strips cut from the
    input, that is the crop of the columns from [j * STRIP_WIDTH] on for
    some strip number [j].  Nothing else is ever pasted, and a strip may be
    pasted more than once. *)
Theorem main_output_is_made_of_strips (cfg : Config) (room : nat)
    (img : PilImage) (image : Canvas) :
  0 < STRIP_WIDTH cfg →
  (STRIP_WIDTH cfg | IMAGE_WIDTH cfg) →
  0 ≤ IMAGE_WIDTH cfg →
  main cfg room img = Ok image →
  canvas_size image = size img ∧
  length (pastes image) = Z.to_nat (IMAGE_WIDTH cfg / STRIP_WIDTH cfg) ∧
  ∀ k p, pastes image !! k = Some p →
    ∃ j : nat,
      (j < Z.to_nat (IMAGE_WIDTH cfg / STRIP_WIDTH cfg))%nat ∧
      p = (crop img (Z.of_nat j * STRIP_WIDTH cfg, 0,
                     Z.of_nat j * STRIP_WIDTH cfg + STRIP_WIDTH cfg,
                     IMAGE_HEIGHT cfg),
           (Z.of_nat k * STRIP_WIDTH cfg, 0)).
Proof.
  intros Hsw [q Hq] Hpos Hmain.
  set (n := Z.to_nat (IMAGE_WIDTH cfg / STRIP_WIDTH cfg)).
  assert (Hdiv : IMAGE_WIDTH cfg / STRIP_WIDTH cfg = q)
    by (rewrite Hq; apply Z.div_mul; lia).
  assert (Hwidth : IMAGE_WIDTH cfg = Z.of_nat n * STRIP_WIDTH cfg)
    by (unfold n; rewrite Hdiv, Hq; nia).
  unfold main in Hmain.
  apply result_bind_inv in Hmain as (strips & Hget & Hmain).
  apply result_bind_inv in Hmain as (st & Hfind & Hmain).
  apply result_bind_inv in Hmain as (left_edge & _ & Hmain).
  unfold GetStrips in Hget.
  destruct (decide (STRIP_WIDTH cfg = 0)) as [|_]; [lia|].
  destruct (decide (STRIP_WIDTH cfg < 0)) as [|_]; [lia|].
  apply (GetStrips_loop_returned cfg img Hsw _ 0%nat) in Hget
    as (new & -> & Hnew).
  cbn [app] in Hfind.
  pose proof (run_calls_pointwise
                (fun s s' => _image s' = _image s)
                ltac:(intros s; reflexivity)
                ltac:(intros s1 s2 s3 H1 H2; cbv beta in *; congruence)
                ltac:(intros s edge d j;
                      apply (keep_min_static s edge d j))
                _ new st Hfind) as Hstatic.
  unfold OrderStrips in Hmain.
  destruct (OrderStrips_rec_returned cfg st n Hsw Hwidth room 0%nat _ _ _
              ltac:(lia) Hmain) as (tail & -> & Hlen & Htail).
  cbn [new_canvas canvas_size pastes app].
  split_and!; [reflexivity | rewrite Hlen; lia |].
  intros k p Hp. destruct (Htail k p Hp) as (i & s & Hi & ->).
  destruct (Forall2_lookup_r _ _ _ _ _ Hstatic Hi) as (s0 & Hs0 & Himg).
  destruct (Forall2_lookup_r _ _ _ _ _ Hnew Hs0)
    as (j & Hj & Hbelow & _ & _ & Hcrop).
  apply lookup_seq in Hj as [-> _]. cbn [Nat.add] in Hcrop, Hbelow.
  exists i. split; [nia|].
  unfold GetImage. rewrite Himg, Hcrop. reflexivity.
Qed.

Lemma main_output_is_made_of_strips_witness :
  canvas_size (mkCanvas (6, 2) [(strip_x, (0, 0)); (strip_y, (2, 0));
                                (strip_z, (4, 0))])
  = size example_image ∧
  length (pastes (mkCanvas (6, 2) [(strip_x, (0, 0)); (strip_y, (2, 0));
                                   (strip_z, (4, 0))]))
  = Z.to_nat (IMAGE_WIDTH example_config / STRIP_WIDTH example_config) ∧
  ∀ k p,
    pastes (mkCanvas (6, 2) [(strip_x, (0, 0)); (strip_y, (2, 0));
                             (strip_z, (4, 0))]) !! k = Some p →
    ∃ j : nat,
      (j < Z.to_nat (IMAGE_WIDTH example_config
                     / STRIP_WIDTH example_config))%nat ∧
      p = (crop example_image
             (Z.of_nat j * STRIP_WIDTH example_config, 0,
              Z.of_nat j * STRIP_WIDTH example_config
              + STRIP_WIDTH example_config,
              IMAGE_HEIGHT example_config),
           (Z.of_nat k * STRIP_WIDTH example_config, 0)).
Proof.
  apply (main_output_is_made_of_strips example_config example_room
           example_image);
    [reflexivity | exists 3; reflexivity | cbn; lia | reflexivity].
Defined.

(** ** Scores seen from both strips *)

(** X21.  When the right border of strip [i] and the left border of strip
    [j] have the same shape, [j] scores as right neighbour of [i] exactly
    what [i] scores as left neighbour of [j]: the two calls compare the same
    two borders. *)
Theorem mutual_scores_agree (strips : list Strip) (i j : nat)
    (si sj : Strip) :
  strips !! i = Some si → strips !! j = Some sj →
  Forall2 (fun p q => length p = length q)
          (GetBorderPixels si R) (GetBorderPixels sj L) →
  candidate_score strips i j R = candidate_score strips j i L ∧
  ∃ d, candidate_score strips i j R = Ok d.
Proof.
  intros Hi Hj Hshape. unfold candidate_score. rewrite Hi, Hj. cbn [opposite].
  assert (Hrev : Forall2 same_channels (GetBorderPixels sj L)
                         (GetBorderPixels si R)).
  { apply Forall2_flip. eapply Forall2_impl; [exact Hshape|].
    intros p q H. symmetry. exact H. }
  rewrite (GetDistance_leading_channels _ _ (same_channels_available _ _ Hrev)).
  rewrite (GetDistance_leading_channels _ _
             (same_channels_available _ _ Hshape)).
  split; [|eauto]. f_equal. apply leading_channels_distance_sym, Hrev.
Qed.

Lemma mutual_scores_agree_witness :
  candidate_score example_strips 2 0 R = candidate_score example_strips 0 2 L ∧
  ∃ d, candidate_score example_strips 2 0 R = Ok d.
Proof.
  apply (mutual_scores_agree example_strips 2 0
           (mkStrip 2 strip_x (mkDict None None) (mkDict MAX MAX)
                    (mkDict [red 200; red 200] [red 10; red 11]))
           (mkStrip 0 strip_y (mkDict None None) (mkDict MAX MAX)
                    (mkDict [red 12; red 13] [red 50; red 50])));
    [reflexivity | reflexivity | repeat constructor].
Defined.

Section Failing_calls.

Implicit Types (strips : list Strip) (s : Strip) (edge : Border).

Lemma FindNeighbors_calls_within n :
  Forall (call_within n) (FindNeighbors_calls n).
Proof.
  apply Forall_forall. intros c Hc. apply list_elem_of_In in Hc.
  unfold FindNeighbors_calls in Hc. apply in_flat_map in Hc as (i & Hi & Hc).
  unfold inner_calls in Hc. apply in_flat_map in Hc as (j & Hj & Hc).
  apply in_seq in Hi, Hj.
  destruct (decide (i = j)) as [|Hne]; [destruct Hc|].
  destruct Hc as [<-|[<-|[]]]; split; cbn; lia.
Qed.

Lemma NeighborDistance_error strips self neighbor edge ne e :
  (self < length strips)%nat → (neighbor < length strips)%nat →
  _NeighborDistance strips self neighbor edge ne = Raise e →
  e = IndexError.
Proof.
  intros Hs Hn. unfold _NeighborDistance.
  destruct (lookup_lt_is_Some_2 strips self Hs) as [s ->].
  destruct (lookup_lt_is_Some_2 strips neighbor Hn) as [nb ->].
  destruct (GetDistance (GetBorderPixels nb ne) (GetBorderPixels s edge))
    as [d|e'] eqn:Hd.
  - cbn. destruct (d <? _); discriminate.
  - cbn. intros [= <-]. unfold GetDistance in Hd.
    eapply pixel_loop_error, Hd.
Qed.

(** Calls within the store fail with [IndexError] only. *)
Lemma run_calls_error calls : ∀ strips e,
  Forall (call_within (length strips)) calls →
  run_calls calls strips = Raise e → e = IndexError.
Proof.
  induction calls as [|[[[self nb] edge] ne] calls IH]; intros strips e Hw;
    [discriminate|].
  inversion Hw as [|? ? [Hs Hn] Hw']; subst. cbn in Hs, Hn.
  cbn [run_calls].
  destruct (_NeighborDistance strips self nb edge ne) as [[st d]|e'] eqn:Hcall.
  - cbn. apply IH. rewrite (NeighborDistance_length _ _ _ _ _ _ _ Hcall).
    exact Hw'.
  - cbn. intros [= <-].
    eapply NeighborDistance_error; [exact Hs | exact Hn | exact Hcall].
Qed.

(** A sequence of calls that returns has computed every score it asked
    for. *)
Lemma run_calls_scores strips0 calls : ∀ strips strips',
  Forall facing_call calls →
  same_static strips strips0 →
  run_calls calls strips = Ok strips' →
  ∀ c, c ∈ calls →
       ∃ d, candidate_score strips0 c.1.1.1 c.1.1.2 c.1.2 = Ok d.
Proof.
  induction calls as [|[[[self nb] edge] ne] calls IH];
    intros strips strips' Hf Hst Hrun c Hc; [inversion Hc|].
  cbn [run_calls] in Hrun.
  apply result_bind_inv in Hrun as ([st d] & Hcall & Hrun).
  inversion Hf as [|? ? Hface Hf']; subst. unfold facing_call in Hface.
  cbn in Hface. subst ne.
  apply NeighborDistance_inv in Hcall as (s & nb' & Hs & Hnb & Hd & ->).
  apply elem_of_cons in Hc as [->|Hc].
  - exists d. cbn. rewrite <- (candidate_score_static _ _ _ _ _ Hst).
    unfold candidate_score. rewrite Hs, Hnb. exact Hd.
  - destruct (Forall2_lookup_l _ _ _ _ _ Hst Hs) as (s0 & Hs0 & H1 & H2 & H3).
    apply (IH (<[self := keep_min s edge d nb]> strips) strips' Hf');
      [|exact Hrun|exact Hc].
    apply (same_static_insert _ _ _ _ s0); auto;
      destruct (keep_min_static s edge d nb) as (? & ? & ?); congruence.
Qed.

Lemma FindNeighbors_calls_pair n i j :
  (i < n)%nat → (j < n)%nat → i ≠ j →
  (i, j, R, L) ∈ FindNeighbors_calls n ∧ (i, j, L, R) ∈ FindNeighbors_calls n.
Proof.
  intros Hi Hj Hne.
  split; apply list_elem_of_In; unfold FindNeighbors_calls;
    apply in_flat_map; (exists i; split; [apply in_seq; lia|]);
    unfold inner_calls; apply in_flat_map;
    (exists j; split; [apply in_seq; lia|]);
    (destruct (decide (i = j)); [contradiction|]); cbn; auto.
Qed.

End Failing_calls.

(** X22.  [FindNeighbors] needs borders of one length.  When the right
    border of some strip and the left border of another differ in length,
    one of the two calls that compare them indexes past the shorter border,
    and [FindNeighbors] raises [IndexError]. *)
Theorem FindNeighbors_ragged_borders_raise (strips : list Strip) (i j : nat)
    (si sj : Strip) :
  strips !! i = Some si → strips !! j = Some sj → i ≠ j →
  length (GetBorderPixels si R) ≠ length (GetBorderPixels sj L) →
  FindNeighbors strips = Raise IndexError.
Proof.
  intros Hi Hj Hne Hlen. unfold FindNeighbors.
  assert (Hil : (i < length strips)%nat) by (eapply lookup_lt_Some, Hi).
  assert (Hjl : (j < length strips)%nat) by (eapply lookup_lt_Some, Hj).
  destruct (run_calls (FindNeighbors_calls (length strips)) strips)
    as [st|e] eqn:Hrun.
  - exfalso.
    pose proof (run_calls_scores strips _ strips st
                  (FindNeighbors_calls_facing _) (same_static_refl _) Hrun)
      as Hscores.
    destruct (FindNeighbors_calls_pair (length strips) i j Hil Hjl Hne)
      as [Hr _].
    destruct (FindNeighbors_calls_pair (length strips) j i Hjl Hil
                ltac:(congruence)) as [_ Hl].
    destruct (Hscores _ Hr) as (d1 & Hd1).
    destruct (Hscores _ Hl) as (d2 & Hd2).
    cbn in Hd1, Hd2. unfold candidate_score in Hd1, Hd2.
    rewrite Hi, Hj in Hd1. rewrite Hj, Hi in Hd2. cbn [opposite] in Hd1, Hd2.
    destruct (Nat.lt_trichotomy (length (GetBorderPixels si R))
                                (length (GetBorderPixels sj L)))
      as [Hlt|[Heq|Hgt]]; [|contradiction|].
    + unfold GetDistance in Hd1.
      destruct (pixel_loop_reads _ _ _ _ _ Hd1
                  (length (GetBorderPixels si R))) as [q Hq];
        [apply list_elem_of_In, in_seq; lia|].
      apply lookup_lt_Some in Hq. lia.
    + unfold GetDistance in Hd2.
      destruct (pixel_loop_reads _ _ _ _ _ Hd2
                  (length (GetBorderPixels sj L))) as [q Hq];
        [apply list_elem_of_In, in_seq; lia|].
      apply lookup_lt_Some in Hq. lia.
  - f_equal. eapply run_calls_error; [|exact Hrun].
    apply FindNeighbors_calls_within.
Qed.

Lemma FindNeighbors_ragged_borders_raise_witness :
  FindNeighbors ragged_strips = Raise IndexError.
Proof.
  apply (FindNeighbors_ragged_borders_raise ragged_strips 0 1
           (mkStrip 0 strip_y (mkDict None None) (mkDict MAX MAX)
                    (mkDict [red 12; red 13] [red 50; red 50]))
           (mkStrip 1 strip_z (mkDict None None) (mkDict MAX MAX)
                    (mkDict [red 52] [red 100])));
    [reflexivity | reflexivity | lia | cbn; lia].
Defined.
